(** * peewee-db-evolve: the schema diff and the migration plan

    A shallow embedding of [peeweedbevolve.py].  Python sets are [gset]s and
    dicts are [gmap]s; a loop over a set or a dict visits [elements] or
    [map_to_list], one fixed order standing for Python's unspecified one.
    Exceptions are the [Raise] results of a small error monad. *)

From Stdlib Require Import Ascii.
From stdpp Require Import gmap strings list fin_maps.

Set Warnings "-clear-no-such-hyp".

Open Scope string_scope.
Open Scope nat_scope.
Open Scope list_scope.
Open Scope stdpp_scope.

(** ** Python values, exceptions *)

(** The values a field default or a bound statement parameter can hold. *)
Inductive pyval :=
| PyNone
| PyBool (b : bool)
| PyInt (z : Z)
| PyStr (s : string)
| PyCallable (f : string).

(** Python truth value, as tested by [if field.default:]. *)
Definition truthy (v : pyval) : bool :=
  match v with
  | PyNone => false
  | PyBool b => b
  | PyInt z => negb (z =? 0)%Z
  | PyStr s => negb (String.eqb s "")
  | PyCallable _ => true
  end.

Module ColumnMetadata.
Record t := mk {
  name : string;
  data_type : string;
  null : bool;
  primary_key : bool;
  table : string
}.
End ColumnMetadata.

Module ForeignKeyMetadata.
Record t := mk {
  column : string;
  dest_table : string;
  dest_column : string;
  table : string;
  name : string
}.
End ForeignKeyMetadata.

(** A format argument of an exception message ([msg % args]): the model
    keeps the format string and its arguments apart. *)
Inductive fmt_arg :=
| ArgStr (s : string)
| ArgColumn (c : ColumnMetadata.t).

Inductive exn :=
| KeyError (key : string)
| Exception (msg : string) (args : list fmt_arg).

Inductive result (A : Type) :=
| Ok (a : A)
| Raise (e : exn).
Arguments Ok {A} a.
Arguments Raise {A} e.

Definition bind {A B} (r : result A) (k : A → result B) : result B :=
  match r with
  | Ok a => k a
  | Raise e => Raise e
  end.

Notation "'let*' x := r 'in' k" := (bind r (λ x, k))
  (at level 10, x pattern, r at level 100, k at level 200).

(** A [for] loop whose body may raise: the state is threaded through the
    iterations, the first exception ends the loop. *)
Fixpoint for_each {A S} (body : S → A → result S) (l : list A) (s : S) : result S :=
  match l with
  | [] => Ok s
  | x :: l' =>
      match body s x with
      | Ok s' => for_each body l' s'
      | Raise e => Raise e
      end
  end.

(** [set.remove(x)]: a [KeyError] when [x] is absent. *)
Definition set_remove (x : string) (s : gset string) : result (gset string) :=
  if decide (x ∈ s) then Ok (s ∖ {[x]}) else Raise (KeyError x).

(** [set.discard(x)]: no error when [x] is absent. *)
Definition set_discard (x : string) (s : gset string) : gset string := s ∖ {[x]}.

(** [d[k]]: a [KeyError] when [k] is absent. *)
Definition getitem {V} (d : gmap string V) (k : string) : result V :=
  match d !! k with
  | Some v => Ok v
  | None => Raise (KeyError k)
  end.

(** ** Strings *)

Definition lower_ascii (c : ascii) : ascii :=
  let n := nat_of_ascii c in
  if (65 <=? n)%nat && (n <=? 90)%nat then ascii_of_nat (n + 32) else c.

Fixpoint lower (s : string) : string :=
  match s with
  | EmptyString => EmptyString
  | String c s' => String (lower_ascii c) (lower s')
  end.

Definition is_digit (c : ascii) : bool :=
  let n := nat_of_ascii c in (48 <=? n)%nat && (n <=? 57)%nat.

(** The characters [str.strip()] removes. *)
Definition is_space (c : ascii) : bool :=
  let n := nat_of_ascii c in
  ((9 <=? n)%nat && (n <=? 13)%nat) || (n =? 32)%nat.

Fixpoint lstrip (s : string) : string :=
  match s with
  | EmptyString => EmptyString
  | String c s' => if is_space c then lstrip s' else s
  end.

Fixpoint rstrip (s : string) : string :=
  match s with
  | EmptyString => EmptyString
  | String c s' =>
      match rstrip s' with
      | EmptyString => if is_space c then EmptyString else String c EmptyString
      | r => String c r
      end
  end.

Definition strip (s : string) : string := rstrip (lstrip s).

Fixpoint startswith (s p : string) {struct p} : bool :=
  match p, s with
  | EmptyString, _ => true
  | String a p', String b s' => Ascii.eqb a b && startswith s' p'
  | String _ _, EmptyString => false
  end.

Arguments startswith : simpl never.

Fixpoint drop_prefix (p s : string) : option string :=
  match p, s with
  | EmptyString, _ => Some s
  | String a p', String b s' => if Ascii.eqb a b then drop_prefix p' s' else None
  | String _ _, EmptyString => None
  end.

Fixpoint skip_digits (s : string) : string :=
  match s with
  | String c s' => if is_digit c then skip_digits s' else s
  | EmptyString => EmptyString
  end.

Definition newline : string := String (ascii_of_nat 10) EmptyString.

(** [_re_varchar.match(t)] for [^varchar[(]\d+[)]$]; Python's [$] also
    matches just before a newline that ends the string. *)
Definition _re_varchar_match (t : string) : bool :=
  match drop_prefix "varchar(" t with
  | None => false
  | Some rest =>
      match rest with
      | String c _ =>
          is_digit c &&
          (let r := skip_digits rest in
           String.eqb r ")" || String.eqb r (")" +:+ newline))
      | EmptyString => false
      end
  end.

(** ** Type normalizer *)

Definition normalize_column_type (t : string) : string :=
  let t := lower t in
  let t := if bool_decide (t ∈ ["serial"]) then "integer" else t in
  let t := if bool_decide (t ∈ ["character varying"]) then "varchar" else t in
  let t := if bool_decide (t ∈ ["timestamp without time zone"]) then "timestamp" else t in
  let t := if bool_decide (t ∈ ["double precision"]) then "real" else t in
  let t := if _re_varchar_match t then "varchar" else t in
  t.

(** ** Declared schema *)

Module Field.
(** A [pw.Field]: [column_type] is what [get_column_type()] returns, [akas]
    the attribute the field hook sets when [aka=] is given, [rel_model] the
    table of the referenced model of a [pw.ForeignKeyField] ([None] for any
    other field), [model_class] the table of the model the field belongs
    to. *)
Record t := mk {
  db_column : string;
  column_type : string;
  null : bool;
  primary_key : bool;
  default : pyval;
  akas : option (list string);
  rel_model : option string;
  model_class : string
}.
End Field.

Definition is_ForeignKeyField (f : Field.t) : bool :=
  match Field.rel_model f with
  | Some _ => true
  | None => false
  end.

Definition normalize_field_type (field : Field.t) : string :=
  let t := Field.column_type field in
  normalize_column_type t.

Definition can_convert (type1 type2 : string) : bool := true.

Definition column_def_changed (a b : ColumnMetadata.t) : bool :=
  negb (bool_decide (ColumnMetadata.null a = ColumnMetadata.null b))
  || negb (bool_decide (ColumnMetadata.data_type a = ColumnMetadata.data_type b))
  || negb (bool_decide (ColumnMetadata.primary_key a = ColumnMetadata.primary_key b)).

(** [cls._meta.aka] is one name or a list of names. *)
Inductive aka_value :=
| AkaStr (s : string)
| AkaList (l : list string).

Module Model.
(** The [_meta] of a model class; [aka] is [None] when the attribute is
    absent. *)
Record t := mk {
  db_table : string;
  aka : option aka_value;
  sorted_fields : list Field.t
}.
End Model.

(** ** Topological order of the models to create *)

Module pw.

(** The tables a model foreign-keys into. *)
Definition fk_targets (m : Model.t) : list string :=
  omap Field.rel_model (Model.sorted_fields m).

(** A model can be placed once every table it foreign-keys into, among the
    tables being sorted, is placed; a model that foreign-keys into its own
    table never can. *)
Definition placeable (names placed : list string) (m : Model.t) : bool :=
  forallb (λ t, bool_decide (t ∈ names → t ∈ placed)) (fk_targets m).

Definition circular : exn :=
  Exception "circular foreign key dependency among the tables to create" [].

(** Modelled from the spec: the loop of [sort_models_topologically].  It
    runs at most once for each pending model; [fuel] is their number. *)
Fixpoint place (fuel : nat) (names : list string) (pending placed : list Model.t)
  : result (list Model.t) :=
  match pending with
  | [] => Ok placed
  | _ :: _ =>
      match fuel with
      | 0 => Raise circular
      | S fuel' =>
          match list_find (λ m, placeable names (Model.db_table <$> placed) m = true) pending with
          | None => Raise circular
          | Some (i, m) => place fuel' names (delete i pending) (placed ++ [m])
          end
      end
  end.

(** Modelled from the spec: [pw.sort_models_topologically] is a function of
    the peewee library, absent from the source.  The spec asks for a
    topological order over the foreign-key dependency graph, a table after
    every table it foreign-keys into among those created in the same run,
    and a loud failure on a dependency cycle.  The model places, one at a
    time, the first pending model all of whose dependencies are placed, and
    raises when models remain and none can be placed. *)
Definition sort_models_topologically (models : list Model.t) : result (list Model.t) :=
  place (length models) (Model.db_table <$> models) models [].

End pw.

(** ** Table-level diff *)

(** The local variables [adds], [deletes] and [renames] of
    [calc_table_changes] while its loop runs. *)
Record table_changes := mk_table_changes {
  tc_adds : gset string;
  tc_deletes : gset string;
  tc_renames : gmap string string
}.

Definition akas_list (akas : aka_value) : list string :=
  match akas with
  | AkaStr s => [s]
  | AkaList l => l
  end.

Section registry.

(** [all_models.keys()], in iteration order. *)
Variable all_models : list Model.t.

Definition table_names_to_models : gmap string Model.t :=
  foldl (λ d cls, <[Model.db_table cls := cls]> d) ∅ all_models.

Definition sort_by_fk_deps (table_names : gset string) : result (list string) :=
  let table_names_to_models : gmap string Model.t :=
    foldl (λ d cls,
             if decide (Model.db_table cls ∈ table_names)
             then <[Model.db_table cls := cls]> d else d) ∅ all_models in
  let* models := pw.sort_models_topologically (map_to_list table_names_to_models).*2 in
  Ok (Model.db_table <$> models).

(** The loop [for a in akas] of [calc_table_changes], which stops at the
    first alias found in [deletes]. *)
Fixpoint aka_loop (to_add : string) (akas : list string) (st : table_changes)
  : result table_changes :=
  match akas with
  | [] => Ok st
  | a :: akas' =>
      if decide (a ∈ tc_deletes st) then
        let renames := <[a := to_add]> (tc_renames st) in
        let* adds := set_remove to_add (tc_adds st) in
        let* deletes := set_remove a (tc_deletes st) in
        Ok (mk_table_changes adds deletes renames)
      else aka_loop to_add akas' st
  end.

(** The body of the loop [for to_add in list(adds)]. *)
Definition table_step (st : table_changes) (to_add : string) : result table_changes :=
  let* cls := getitem table_names_to_models to_add in
  match Model.aka cls with
  | Some akas => aka_loop to_add (akas_list akas) st
  | None => Ok st
  end.

Definition calc_table_changes (existing_tables : list string)
  : result (list string * gset string * gmap string string) :=
  let existing_tables : gset string := list_to_set existing_tables in
  let defined_tables : gset string := dom table_names_to_models in
  let adds := defined_tables ∖ existing_tables in
  let deletes := existing_tables ∖ defined_tables in
  let renames : gmap string string := ∅ in
  let* st := for_each table_step (elements adds) (mk_table_changes adds deletes renames) in
  let* adds := sort_by_fk_deps (tc_adds st) in
  Ok (adds, tc_deletes st, tc_renames st).

End registry.

(** ** Statements *)

Inductive Migrator :=
| PostgresqlMigrator
| SqliteMigrator.

Inductive node :=
| SQL (s : string)
| Entity (s : string).

(** What [qc.parse_node] is handed: the value a migrator method returns
    under [generate=True], the foreign-key constraint built by
    [qc._create_foreign_key], or a [pw.Clause] written out in the source. *)
Inductive operation :=
| rename_table (migrator : Migrator) (old_name new_name : string)
| alter_add_column (migrator : Migrator) (table column_name : string) (field : Field.t)
| apply_default (migrator : Migrator) (table column_name : string) (field : Field.t)
| add_not_null (migrator : Migrator) (table column : string)
| drop_not_null (migrator : Migrator) (table column : string)
| drop_column (migrator : Migrator) (table column_name : string) (cascade : bool)
| rename_column (migrator : Migrator) (table old_name new_name : string)
| _create_foreign_key (model_class : string) (field : Field.t)
| Clause (nodes : list node).

(** An entry of the plan: a [(sql, params)] pair, named by the call of the
    query compiler that returns it, or written out as a tuple. *)
Inductive statement :=
| parse_node (op : operation)
| create_table (model_class : Model.t)
| sql_params (sql : string) (params : list pyval).

(** ** Column-level diff *)

(** The local variables [new_cols], [delete_cols] and [rename_cols] of
    [calc_column_changes] while its rename loop runs. *)
Record column_changes := mk_column_changes {
  cc_new_cols : gset string;
  cc_delete_cols : gset string;
  cc_rename_cols : gmap string string
}.

(** The dict comprehension [{key(x): x for x in l}]: a later entry replaces
    an earlier one with the same key. *)
Definition dict_by {V} (key : V → string) (l : list V) : gmap string V :=
  foldl (λ d x, <[key x := x]> d) ∅ l.

Section column_changes.

Variable migrator : Migrator.
Variable ntn : string.

Section rename_loop.

Variable defined_cols_by_name : gmap string ColumnMetadata.t.
Variable defined_fields_by_column_name : gmap string Field.t.
Variable existing_cols_by_name : gmap string ColumnMetadata.t.

(** The body of [for aka in field.akas], for the new column [cn] with
    declared definition [sc]. *)
Definition aka_step (cn : string) (sc : ColumnMetadata.t)
    (st : column_changes) (aka : string) : result column_changes :=
  if decide (aka ∈ cc_delete_cols st) then
    let* ec := getitem existing_cols_by_name aka in
    if can_convert (ColumnMetadata.data_type sc) (ColumnMetadata.data_type ec) then
      let rename_cols := <[ColumnMetadata.name ec := ColumnMetadata.name sc]> (cc_rename_cols st) in
      let new_cols := set_discard cn (cc_new_cols st) in
      let delete_cols := set_discard aka (cc_delete_cols st) in
      Ok (mk_column_changes new_cols delete_cols rename_cols)
    else Ok st
  else Ok st.

(** The body of [for cn in list(new_cols)]. *)
Definition rename_step (st : column_changes) (cn : string) : result column_changes :=
  let* sc := getitem defined_cols_by_name cn in
  let* field := getitem defined_fields_by_column_name cn in
  match Field.akas field with
  | Some akas => for_each (aka_step cn sc) akas st
  | None => Ok st
  end.

End rename_loop.

Section alter_loops.

Variable defined_cols_by_name : gmap string ColumnMetadata.t.
Variable defined_fields_by_column_name : gmap string Field.t.
Variable existing_cols_by_name : gmap string ColumnMetadata.t.
Variable renames_new_to_old : gmap string string.
Variable existing_fks_by_column : gmap string ForeignKeyMetadata.t.

(** The body of the loop that looks for column metadata changes. *)
Definition metadata_step (alter_statements : list statement) (col_name : string)
  : result (list statement) :=
  let* existing_col :=
    getitem existing_cols_by_name (default col_name (renames_new_to_old !! col_name)) in
  let* defined_col := getitem defined_cols_by_name col_name in
  if column_def_changed existing_col defined_col then
    let len_alter_statements := length alter_statements in
    let alter_statements :=
      if ColumnMetadata.null existing_col && negb (ColumnMetadata.null defined_col) then
        let op := add_not_null migrator ntn (ColumnMetadata.name defined_col) in
        alter_statements ++ [parse_node op]
      else alter_statements in
    let alter_statements :=
      if negb (ColumnMetadata.null existing_col) && ColumnMetadata.null defined_col then
        let op := drop_not_null migrator ntn (ColumnMetadata.name defined_col) in
        alter_statements ++ [parse_node op]
      else alter_statements in
    if negb (len_alter_statements <? length alter_statements) then
      Raise (Exception "i don't know how to change %s into %s"
               [ArgColumn existing_col; ArgColumn defined_col])
    else Ok alter_statements
  else Ok alter_statements.

(** The body of the loop that looks for foreign-key changes. *)
Definition fk_step (alter_statements : list statement) (col_name : string)
  : result (list statement) :=
  let existing_column_name := default col_name (renames_new_to_old !! col_name) in
  let* defined_field := getitem defined_fields_by_column_name col_name in
  let existing_fk := existing_fks_by_column !! existing_column_name in
  let alter_statements :=
    if is_ForeignKeyField defined_field && negb (bool_decide (is_Some existing_fk)) then
      let op := _create_foreign_key (Field.model_class defined_field) defined_field in
      alter_statements ++ [parse_node op]
    else alter_statements in
  let alter_statements :=
    match existing_fk with
    | Some existing_fk =>
        if negb (is_ForeignKeyField defined_field) then
          let op := Clause [SQL "ALTER TABLE"; Entity ntn; SQL "DROP CONSTRAINT";
                            Entity (ForeignKeyMetadata.name existing_fk)] in
          alter_statements ++ [parse_node op]
        else alter_statements
    | None => alter_statements
    end in
  Ok alter_statements.

End alter_loops.

(** The dict comprehension [{v: k for k, v in rename_cols.items()}]. *)
Definition invert_renames (rename_cols : gmap string string) : gmap string string :=
  foldl (λ d kv, <[kv.2 := kv.1]> d) ∅ (map_to_list rename_cols).

(** [calc_column_changes]: the argument [db] and the compiler [qc] it gives
    are left out, the compiled statements being kept as [parse_node] terms;
    [etn] is not read; every member of [defined_fields] is a [pw.Field]. *)
Definition calc_column_changes (etn : string)
    (existing_columns : list ColumnMetadata.t) (defined_fields : list Field.t)
    (existing_fks : list ForeignKeyMetadata.t)
  : result (gset string * gset string * gmap string string * list statement) :=
  let defined_fields_by_column_name := dict_by Field.db_column defined_fields in
  let existing_columns :=
    (λ c, ColumnMetadata.mk (ColumnMetadata.name c)
            (normalize_column_type (ColumnMetadata.data_type c))
            (ColumnMetadata.null c) (ColumnMetadata.primary_key c)
            (ColumnMetadata.table c)) <$> existing_columns in
  let defined_columns :=
    (λ f, ColumnMetadata.mk (Field.db_column f) (normalize_field_type f)
            (Field.null f) (Field.primary_key f) ntn) <$> defined_fields in
  let existing_cols_by_name := dict_by ColumnMetadata.name existing_columns in
  let defined_cols_by_name := dict_by ColumnMetadata.name defined_columns in
  let existing_col_names : gset string := dom existing_cols_by_name in
  let defined_col_names : gset string := dom defined_cols_by_name in
  let new_cols := defined_col_names ∖ existing_col_names in
  let delete_cols := existing_col_names ∖ defined_col_names in
  let rename_cols : gmap string string := ∅ in
  let* st :=
    for_each (rename_step defined_cols_by_name defined_fields_by_column_name
                existing_cols_by_name)
      (elements new_cols) (mk_column_changes new_cols delete_cols rename_cols) in
  let alter_statements : list statement := [] in
  let renames_new_to_old := invert_renames (cc_rename_cols st) in
  let not_new_columns := defined_col_names ∖ cc_new_cols st in
  let* alter_statements :=
    for_each (metadata_step defined_cols_by_name existing_cols_by_name renames_new_to_old)
      (elements not_new_columns) alter_statements in
  let existing_fks_by_column := dict_by ForeignKeyMetadata.column existing_fks in
  let* alter_statements :=
    for_each (fk_step defined_fields_by_column_name renames_new_to_old existing_fks_by_column)
      (elements not_new_columns) alter_statements in
  Ok (cc_new_cols st, cc_delete_cols st, cc_rename_cols st, alter_statements).

End column_changes.

(** ** Introspection *)

Module Database.
(** What the diff reads from the live database: the class name of the
    connection object, [get_tables()], [get_columns(table)] and the rows the
    foreign-key catalog query returns for a schema.  [get_indexes], whose
    result [calc_changes] never reads, is left out. *)
Record t := mk {
  class_name : string;
  get_tables : list string;
  get_columns : string → list ColumnMetadata.t;
  foreign_key_rows : string → list (string * string * string * string * string)
}.
End Database.

Definition auto_detect_migrator (db : Database.t) : result Migrator :=
  if bool_decide (Database.class_name db ∈ ["PostgresqlDatabase"]) then
    Ok PostgresqlMigrator
  else if bool_decide (Database.class_name db ∈ ["SqliteDatabase"]) then
    Ok SqliteMigrator
  else
    Raise (Exception
             "could not auto-detect migrator for %s - please provide one via the migrator kwarg"
             [ArgStr (Database.class_name db)]).

(** [fks_by_table] is a [defaultdict(list)]: it is read with [!!!], which
    gives the empty list for a missing table. *)
Definition get_foreign_keys_by_table (db : Database.t) (schema : string)
  : gmap string (list ForeignKeyMetadata.t) :=
  foldl (λ fks_by_table row,
           let '(r0, r1, r2, r3, r4) := row in
           let fk := ForeignKeyMetadata.mk r0 r1 r2 r3 r4 in
           <[ForeignKeyMetadata.table fk :=
               (fks_by_table !!! ForeignKeyMetadata.table fk) ++ [fk]]> fks_by_table)
    ∅ (Database.foreign_key_rows db schema).

(** ** The plan *)

(** A list comprehension whose element expression may raise. *)
Fixpoint list_comp {A B} (f : A → result B) (l : list A) : result (list B) :=
  match l with
  | [] => Ok []
  | x :: l' =>
      let* y := f x in
      let* ys := list_comp f l' in
      Ok (y :: ys)
  end.

Definition not_null_warning : statement :=
  sql_params
    "-- adding a not null column without a default will fail if the table is not empty" [].

Section plan.

Variable all_models : list Model.t.

(** [hasattr(ops, '__iter__')]: the members of a value of the migrator that
    is a sequence of operations, [None] for a single operation. *)
Variable iter_ops : operation → option (list operation).

Section per_table.

Variable migrator : Migrator.
Variable ntn : string.
Variable defined_column_name_to_field : gmap string Field.t.

(** The body of [for column_name in adds]. *)
Definition add_step (to_run : list statement) (column_name : string)
  : result (list statement) :=
  let* field := getitem defined_column_name_to_field column_name in
  let operation := alter_add_column migrator ntn column_name field in
  let to_run := to_run ++ [parse_node operation] in
  if negb (Field.null field) then
    let to_run :=
      if truthy (Field.default field) then
        let operation := apply_default migrator ntn column_name field in
        to_run ++ [parse_node operation]
      else to_run ++ [not_null_warning] in
    let operation := add_not_null migrator ntn column_name in
    Ok (to_run ++ [parse_node operation])
  else Ok to_run.

(** The body of [for column_name in deletes]. *)
Definition drop_step (to_run : list statement) (column_name : string) : list statement :=
  let operation := drop_column migrator ntn column_name false in
  to_run ++ [parse_node operation].

(** The body of [for ocn, ncn in renames.items()]. *)
Definition rename_column_step (to_run : list statement) (item : string * string)
  : list statement :=
  let '(ocn, ncn) := item in
  let operation := rename_column migrator ntn ocn ncn in
  to_run ++ [parse_node operation].

End per_table.

(** The body of [for k, v in table_renames.items()]. *)
Definition rename_table_step (migrator : Migrator) (to_run : list statement)
    (item : string * string) : list statement :=
  let '(k, v) := item in
  let ops := rename_table migrator k v in
  let ops := match iter_ops ops with
             | None => [ops]
             | Some l => l
             end in
  to_run ++ (parse_node <$> ops).

(** The body of [for etn, ecols in existing_columns.items()]; the state is
    [to_run] and [rename_cols_by_table]. *)
Definition columns_step (migrator : Migrator)
    (foreign_keys_by_table : gmap string (list ForeignKeyMetadata.t))
    (table_deletes : gset string) (table_renames : gmap string string)
    (st : list statement * gmap string (gmap string string))
    (item : string * list ColumnMetadata.t)
  : result (list statement * gmap string (gmap string string)) :=
  let '(to_run, rename_cols_by_table) := st in
  let '(etn, ecols) := item in
  if decide (etn ∈ table_deletes) then Ok st
  else
    let ntn := default etn (table_renames !! etn) in
    let* cls := getitem (table_names_to_models all_models) ntn in
    let defined_fields := Model.sorted_fields cls in
    let defined_column_name_to_field := dict_by Field.db_column defined_fields in
    let* (adds, deletes, renames, alter_statements) :=
      calc_column_changes migrator ntn etn ecols defined_fields
        (foreign_keys_by_table !!! etn) in
    let* to_run :=
      for_each (add_step migrator ntn defined_column_name_to_field) (elements adds) to_run in
    let to_run := foldl (drop_step migrator ntn) to_run (elements deletes) in
    let to_run := foldl (rename_column_step migrator ntn) to_run (map_to_list renames) in
    let to_run := to_run ++ alter_statements in
    Ok (to_run, <[ntn := renames]> rename_cols_by_table).

Definition calc_changes (db : Database.t) : result (list statement) :=
  let* migrator := auto_detect_migrator db in
  let existing_tables := Database.get_tables db in
  let existing_columns : gmap string (list ColumnMetadata.t) :=
    foldl (λ d table, <[table := Database.get_columns db table]> d) ∅ existing_tables in
  let foreign_keys_by_table := get_foreign_keys_by_table db "public" in
  let to_run : list statement := [] in
  let* (table_adds, table_deletes, table_renames) :=
    calc_table_changes all_models existing_tables in
  let* creates :=
    list_comp (λ tbl, let* cls := getitem (table_names_to_models all_models) tbl in
                      Ok (create_table cls)) table_adds in
  let to_run := to_run ++ creates in
  let to_run := foldl (rename_table_step migrator) to_run (map_to_list table_renames) in
  let* (to_run, rename_cols_by_table) :=
    for_each (columns_step migrator foreign_keys_by_table table_deletes table_renames)
      (map_to_list existing_columns) (to_run, ∅) in
  let to_run :=
    to_run ++ ((λ tbl, parse_node (Clause [SQL "DROP TABLE"; Entity tbl]))
                 <$> elements table_deletes) in
  Ok to_run.

End plan.

(** ** Plan executor *)

Section executor.

(** Modelled from the spec: the connection is an external collaborator that
    executes a parameterized statement and begins, commits and rolls back a
    transaction.  [schema] is the state of the live database and
    [execute_sql] the effect of one statement on it: the state it leaves
    and, when the statement fails, the error. *)
Variable schema : Type.
Variable execute_sql : schema → string → list pyval → schema * result unit.

(** A connection: the live schema and the snapshots taken when the open
    transactions began, innermost first. *)
Record connection := mk_connection {
  live : schema;
  snapshots : list schema
}.

Definition begin (c : connection) : connection :=
  mk_connection (live c) (live c :: snapshots c).

Definition commit (c : connection) : connection :=
  mk_connection (live c) (tail (snapshots c)).

Definition rollback (c : connection) : connection :=
  mk_connection (default (live c) (head (snapshots c))) (tail (snapshots c)).

(** [with db.atomic() as txn: body]: commit when the body returns, roll
    back and raise again when it raises. *)
Definition atomic (body : connection → connection * result unit) (c : connection)
  : connection * result unit :=
  let (c', r) := body (begin c) in
  match r with
  | Ok _ => (commit c', r)
  | Raise _ => (rollback c', r)
  end.

Definition db_execute_sql (c : connection) (sql : string) (params : list pyval)
  : connection * result unit :=
  let (s, r) := execute_sql (live c) sql params in
  (mk_connection s (snapshots c), r).

(** The loop [for sql, params in to_run] of [_execute]. *)
Fixpoint execute_loop (to_run : list (string * list pyval)) (c : connection)
  : connection * result unit :=
  match to_run with
  | [] => (c, Ok ())
  | (sql, params) :: to_run' =>
      if startswith (strip sql) "--" then execute_loop to_run' c
      else
        let (c', r) := db_execute_sql c sql params in
        match r with
        | Ok _ => execute_loop to_run' c'
        | Raise _ => (c', r)
        end
  end.

(** [_execute]; what it prints when [interactive] is set is left out. *)
Definition _execute (db : connection) (to_run : list (string * list pyval))
    (interactive : bool) : connection * result unit :=
  atomic (execute_loop to_run) db.

End executor.

(** The [(sql, params)] pair an entry of the plan is, given what the query
    compiler [qc] returns for an operation and for a model. *)
Definition compile (qc_parse_node : operation → string * list pyval)
    (qc_create_table : Model.t → string * list pyval) (stmt : statement)
  : string * list pyval :=
  match stmt with
  | parse_node op => qc_parse_node op
  | create_table model_class => qc_create_table model_class
  | sql_params sql params => (sql, params)
  end.

(** ** Vocabulary of the properties *)

(** The tables the model declared for table [t] foreign-keys into. *)
Definition fk_deps (all_models : list Model.t) (t : string) : list string :=
  match table_names_to_models all_models !! t with
  | Some cls => pw.fk_targets cls
  | None => []
  end.

(** Every table of [l] comes after the tables of [l] it foreign-keys into. *)
Definition fk_ordered (all_models : list Model.t) (l : list string) : Prop :=
  ∀ j t t', l !! j = Some t → t' ∈ fk_deps all_models t → t' ∈ l →
    ∃ i, i < j ∧ l !! i = Some t'.

(** [t] foreign-keys into [t'], both being declared tables of
    [table_names]. *)
Definition depends (all_models : list Model.t) (table_names : gset string)
    (t t' : string) : Prop :=
  (t ∈ table_names ∧ is_Some (table_names_to_models all_models !! t)) ∧
  (t' ∈ table_names ∧ is_Some (table_names_to_models all_models !! t')) ∧
  t' ∈ fk_deps all_models t.

(** The alias names a declared table gives, none when [aka] is absent. *)
Definition aliases (cls : Model.t) : list string :=
  match Model.aka cls with
  | Some akas => akas_list akas
  | None => []
  end.

(** The alias names declared for table [t]. *)
Definition aliases_of (all_models : list Model.t) (t : string) : list string :=
  match table_names_to_models all_models !! t with
  | Some cls => aliases cls
  | None => []
  end.

(** What a run of the rename loop of [calc_table_changes] over the tables
    [l] does to its state: the sets only shrink, a rename entry is only
    added for a table of [l] and an alias of it taken from [deletes], an
    entry whose key has left [deletes] stays, and a table only leaves
    [adds] when it is in [l] and has an alias in [deletes]. *)
Record table_summary (all_models : list Model.t) (l : list string)
    (st st' : table_changes) : Prop := mk_table_summary {
  ts_adds : tc_adds st' ⊆ tc_adds st;
  ts_deletes : tc_deletes st' ⊆ tc_deletes st;
  ts_new : ∀ a t, tc_renames st' !! a = Some t →
    tc_renames st !! a = Some t ∨
    (t ∈ l ∧ a ∈ tc_deletes st ∧ a ∈ aliases_of all_models t);
  ts_keep : ∀ a t, tc_renames st !! a = Some t → a ∉ tc_deletes st →
    tc_renames st' !! a = Some t;
  ts_left : ∀ t, t ∈ tc_adds st → t ∉ tc_adds st' →
    t ∈ l ∧ ∃ a, a ∈ aliases_of all_models t ∧ a ∈ tc_deletes st
}.

(** Every rename entry has left both sets. *)
Definition renames_resolved (st : table_changes) : Prop :=
  ∀ a t, tc_renames st !! a = Some t → (t ∉ tc_adds st) ∧ (a ∉ tc_deletes st).

(** The state of the rename loop of [calc_table_changes] when it starts. *)
Definition table_changes_init (all_models : list Model.t) (existing_tables : list string)
  : table_changes :=
  let existing_tables : gset string := list_to_set existing_tables in
  let defined_tables : gset string := dom (table_names_to_models all_models) in
  mk_table_changes (defined_tables ∖ existing_tables) (existing_tables ∖ defined_tables) ∅.

(** In the result of [calc_table_changes] the existing table [a] and the
    declared table [to_add] are one rename: [renames] maps [a] to [to_add]
    and nothing else to [to_add], [to_add] is not created, [a] is not
    dropped. *)
Definition renamed_pair (adds : list string) (deletes : gset string)
    (renames : gmap string string) (a to_add : string) : Prop :=
  renames !! a = Some to_add ∧
  (∀ k, renames !! k = Some to_add → k = a) ∧
  (to_add ∉ adds) ∧ (a ∉ deletes).

(** In the result of [calc_table_changes] the declared table [to_add] is
    created and no existing table is renamed to it. *)
Definition pure_add (adds : list string) (renames : gmap string string)
    (to_add : string) : Prop :=
  to_add ∈ adds ∧ ∀ k, renames !! k ≠ Some to_add.

(** The dicts and sets [calc_column_changes] computes from its arguments
    before its loops run. *)
Definition existing_cols_by_name (existing_columns : list ColumnMetadata.t)
  : gmap string ColumnMetadata.t :=
  dict_by ColumnMetadata.name
    ((λ c, ColumnMetadata.mk (ColumnMetadata.name c)
             (normalize_column_type (ColumnMetadata.data_type c))
             (ColumnMetadata.null c) (ColumnMetadata.primary_key c)
             (ColumnMetadata.table c)) <$> existing_columns).

Definition defined_cols_by_name (ntn : string) (defined_fields : list Field.t)
  : gmap string ColumnMetadata.t :=
  dict_by ColumnMetadata.name
    ((λ f, ColumnMetadata.mk (Field.db_column f) (normalize_field_type f)
             (Field.null f) (Field.primary_key f) ntn) <$> defined_fields).

Definition defined_fields_by_column_name (defined_fields : list Field.t)
  : gmap string Field.t :=
  dict_by Field.db_column defined_fields.

Definition existing_fks_by_column (existing_fks : list ForeignKeyMetadata.t)
  : gmap string ForeignKeyMetadata.t :=
  dict_by ForeignKeyMetadata.column existing_fks.

(** The state of the rename loop of [calc_column_changes] when it starts. *)
Definition column_changes_init (ntn : string)
    (existing_columns : list ColumnMetadata.t) (defined_fields : list Field.t)
  : column_changes :=
  let existing_col_names : gset string := dom (existing_cols_by_name existing_columns) in
  let defined_col_names : gset string := dom (defined_cols_by_name ntn defined_fields) in
  mk_column_changes (defined_col_names ∖ existing_col_names)
    (existing_col_names ∖ defined_col_names) ∅.

(** The columns the two alter loops visit. *)
Definition not_new_columns (ntn : string) (defined_fields : list Field.t)
    (new_cols : gset string) : gset string :=
  dom (defined_cols_by_name ntn defined_fields) ∖ new_cols.

(** The rename loop of [calc_column_changes] over the new columns [l]. *)
Definition rename_loop (ntn : string) (existing_columns : list ColumnMetadata.t)
    (defined_fields : list Field.t) (l : list string) (st : column_changes)
  : result column_changes :=
  for_each (rename_step (defined_cols_by_name ntn defined_fields)
              (defined_fields_by_column_name defined_fields)
              (existing_cols_by_name existing_columns)) l st.

(** The loop of [calc_column_changes] that looks for column metadata
    changes, over the columns [l]. *)
Definition metadata_loop (migrator : Migrator) (ntn : string)
    (existing_columns : list ColumnMetadata.t) (defined_fields : list Field.t)
    (rename_cols : gmap string string) (l : list string)
    (alter_statements : list statement) : result (list statement) :=
  for_each (metadata_step migrator ntn (defined_cols_by_name ntn defined_fields)
              (existing_cols_by_name existing_columns) (invert_renames rename_cols))
    l alter_statements.

(** The loop of [calc_column_changes] that looks for foreign-key changes,
    over the columns [l]. *)
Definition fk_loop (ntn : string) (defined_fields : list Field.t)
    (existing_fks : list ForeignKeyMetadata.t)
    (rename_cols : gmap string string) (l : list string)
    (alter_statements : list statement) : result (list statement) :=
  for_each (fk_step ntn (defined_fields_by_column_name defined_fields)
              (invert_renames rename_cols) (existing_fks_by_column existing_fks))
    l alter_statements.

(** Every column rename entry has left both sets. *)
Definition column_renames_resolved (st : column_changes) : Prop :=
  ∀ k v, cc_rename_cols st !! k = Some v →
    (v ∉ cc_new_cols st) ∧ (k ∉ cc_delete_cols st).

(** What a run of the rename loop of [calc_column_changes] does to its
    state: the sets only shrink and an entry whose key has left
    [delete_cols] stays. *)
Record column_summary (st st' : column_changes) : Prop := mk_column_summary {
  cs_new : cc_new_cols st' ⊆ cc_new_cols st;
  cs_delete : cc_delete_cols st' ⊆ cc_delete_cols st;
  cs_keep : ∀ k v, cc_rename_cols st !! k = Some v → k ∉ cc_delete_cols st →
    cc_rename_cols st' !! k = Some v
}.

(** ** The shape of the plan

    The order of the statements of a plan, written out as the spec gives it;
    [calc_changes_plan] compares it with what [calc_changes] computes. *)

(** For one column to add: the add, then, when the column is declared NOT
    NULL, the backfill of the default -- or the warning when the default is
    not a true value -- and the add-not-null. *)
Definition add_column_statements (migrator : Migrator) (ntn column_name : string)
    (field : Field.t) : list statement :=
  parse_node (alter_add_column migrator ntn column_name field) ::
  (if Field.null field then []
   else [if truthy (Field.default field)
         then parse_node (apply_default migrator ntn column_name field)
         else not_null_warning;
         parse_node (add_not_null migrator ntn column_name)]).

(** For one surviving table: the column adds, the column drops, the column
    renames, the remaining alters. *)
Definition table_statements (migrator : Migrator) (ntn : string)
    (defined_fields : list Field.t)
    (adds deletes : gset string) (renames : gmap string string)
    (alter_statements : list statement) : list statement :=
  mjoin ((λ column_name,
            match defined_fields_by_column_name defined_fields !! column_name with
            | Some field => add_column_statements migrator ntn column_name field
            | None => []
            end) <$> elements adds)
  ++ ((λ column_name, parse_node (drop_column migrator ntn column_name false))
        <$> elements deletes)
  ++ ((λ item : string * string,
         parse_node (rename_column migrator ntn item.1 item.2))
        <$> map_to_list renames)
  ++ alter_statements.

(** The statements of the table renames. *)
Definition rename_table_statements (iter_ops : operation → option (list operation))
    (migrator : Migrator) (table_renames : gmap string string) : list statement :=
  mjoin ((λ item : string * string,
            parse_node <$> (match iter_ops (rename_table migrator item.1 item.2) with
                            | None => [rename_table migrator item.1 item.2]
                            | Some l => l
                            end)) <$> map_to_list table_renames).

(** [existing_columns] of [calc_changes]. *)
Definition existing_columns_of (db : Database.t) : gmap string (list ColumnMetadata.t) :=
  foldl (λ d table, <[table := Database.get_columns db table]> d) ∅
    (Database.get_tables db).

(** [block] is what the plan holds for the existing table [item]: nothing
    when the table is dropped, else the statements of its column-level
    diff against the declared table it stays or becomes. *)
Definition table_block (all_models : list Model.t) (db : Database.t)
    (migrator : Migrator) (table_deletes : gset string)
    (table_renames : gmap string string)
    (item : string * list ColumnMetadata.t) (block : list statement) : Prop :=
  if decide (item.1 ∈ table_deletes) then block = []
  else
    let ntn := default item.1 (table_renames !! item.1) in
    ∃ cls adds deletes renames alter_statements,
      table_names_to_models all_models !! ntn = Some cls ∧
      calc_column_changes migrator ntn item.1 item.2 (Model.sorted_fields cls)
        (get_foreign_keys_by_table db "public" !!! item.1)
      = Ok (adds, deletes, renames, alter_statements) ∧
      block = table_statements migrator ntn (Model.sorted_fields cls)
                adds deletes renames alter_statements.

(** The statements [l] stand next to each other, in this order, in [plan]. *)
Definition consecutive_in (l plan : list statement) : Prop :=
  ∃ before after, plan = before ++ l ++ after.

(** What the rename loop of [calc_column_changes] keeps true of its state,
    [init] being the state it starts with: the sets stay within the
    initial ones, the source of a rename entry was to delete and no longer
    is, and a column that is no longer new is the target of an entry. *)
Record column_invariant (init st : column_changes) : Prop := mk_column_invariant {
  ci_new : cc_new_cols st ⊆ cc_new_cols init;
  ci_delete : cc_delete_cols st ⊆ cc_delete_cols init;
  ci_source : ∀ k v, cc_rename_cols st !! k = Some v →
    k ∈ cc_delete_cols init ∧ k ∉ cc_delete_cols st;
  ci_target : ∀ cn, cn ∈ cc_new_cols init → cn ∉ cc_new_cols st →
    ∃ k, cc_rename_cols st !! k = Some cn
}.

(** The change of the surviving column [col_name] that the metadata loop
    cannot express: the definitions differ and the nullability is the
    same. *)
Definition unsupported_change (ntn : string)
    (existing_columns : list ColumnMetadata.t) (defined_fields : list Field.t)
    (rename_cols : gmap string string) (col_name : string)
    (existing_col defined_col : ColumnMetadata.t) : Prop :=
  existing_cols_by_name existing_columns
    !! default col_name (invert_renames rename_cols !! col_name) = Some existing_col ∧
  defined_cols_by_name ntn defined_fields !! col_name = Some defined_col ∧
  column_def_changed existing_col defined_col = true ∧
  ColumnMetadata.null existing_col = ColumnMetadata.null defined_col.

(** ** Worked examples *)

(** The scenario of the spec: the existing table [users] becomes the
    declared table [people], which also gains two columns; [orders] is
    new and [junk] is no longer declared. *)
Definition ex_people : Model.t :=
  Model.mk "people" (Some (AkaStr "users"))
    [Field.mk "id" "serial" false true PyNone None None "people";
     Field.mk "name" "varchar(255)" false false PyNone None None "people";
     Field.mk "email" "varchar(255)" true false PyNone None None "people";
     Field.mk "signup_ip" "varchar(255)" true false PyNone None None "people";
     Field.mk "nickname" "varchar(255)" false false PyNone None None "people"].

Definition ex_orders : Model.t :=
  Model.mk "orders" None
    [Field.mk "id" "serial" false true PyNone None None "orders";
     Field.mk "person_id" "integer" false false PyNone None (Some "people") "orders"].

Definition ex_models : list Model.t := [ex_people; ex_orders].

Definition ex_db : Database.t :=
  Database.mk "PostgresqlDatabase" ["users"; "junk"]
    (λ table,
       if String.eqb table "users" then
         [ColumnMetadata.mk "id" "integer" false true "users";
          ColumnMetadata.mk "name" "character varying" true false "users";
          ColumnMetadata.mk "email" "character varying" true false "users"]
       else [ColumnMetadata.mk "id" "integer" false true "junk"])
    (λ _, []).

Definition ex_iter_ops : operation → option (list operation) := λ _, None.

(** A table whose columns are renamed, altered and re-keyed. *)
Definition ex_existing_columns : list ColumnMetadata.t :=
  [ColumnMetadata.mk "id" "integer" false true "t";
   ColumnMetadata.mk "mail1" "character varying" true false "t";
   ColumnMetadata.mk "mail2" "character varying" true false "t";
   ColumnMetadata.mk "owner_id" "integer" true false "t";
   ColumnMetadata.mk "ref_id" "integer" true false "t";
   ColumnMetadata.mk "n" "integer" true false "t";
   ColumnMetadata.mk "m" "integer" false false "t";
   ColumnMetadata.mk "legacy" "text" true false "t"].

Definition ex_owner : Field.t :=
  Field.mk "owner" "integer" true false PyNone (Some ["owner_id"]) None "t".

Definition ex_ref : Field.t :=
  Field.mk "ref_id" "integer" true false PyNone None (Some "u") "t".

Definition ex_defined_fields : list Field.t :=
  [Field.mk "id" "serial" false true PyNone None None "t";
   Field.mk "email" "varchar(80)" true false PyNone (Some ["mail1"; "mail2"]) None "t";
   ex_owner;
   ex_ref;
   Field.mk "n" "integer" false false PyNone None None "t";
   Field.mk "m" "integer" true false PyNone None None "t";
   Field.mk "extra" "text" true false PyNone None None "t"].

Definition ex_fk_owner : ForeignKeyMetadata.t :=
  ForeignKeyMetadata.mk "owner_id" "u" "id" "t" "t_owner_id_fkey".

Definition ex_existing_fks : list ForeignKeyMetadata.t := [ex_fk_owner].

(** A column that changes its type and becomes NOT NULL in one step. *)
Definition ex_retyped_existing : list ColumnMetadata.t :=
  [ColumnMetadata.mk "a" "character varying" true false "t"].

Definition ex_retyped_fields : list Field.t :=
  [Field.mk "a" "integer" false false PyNone None None "t"].

(** A NOT NULL column added with the default [False]. *)
Definition ex_flag : Field.t :=
  Field.mk "active" "boolean" false false (PyBool false) None None "t".

Definition ex_flag_models : list Model.t :=
  [Model.mk "t" None
     [Field.mk "id" "serial" false true PyNone None None "t"; ex_flag]].

Definition ex_flag_db : Database.t :=
  Database.mk "PostgresqlDatabase" ["t"]
    (λ _, [ColumnMetadata.mk "id" "integer" false true "t"]) (λ _, []).

(** Two declared tables that foreign-key into each other, and a chain. *)
Definition ex_cycle : list Model.t :=
  [Model.mk "a" None [Field.mk "b_id" "integer" false false PyNone None (Some "b") "a"];
   Model.mk "b" None [Field.mk "a_id" "integer" false false PyNone None (Some "a") "b"]].

Definition ex_chain : list Model.t :=
  [Model.mk "a" None [Field.mk "b_id" "integer" false false PyNone None (Some "b") "a"];
   Model.mk "b" None [Field.mk "c_id" "integer" false false PyNone None (Some "c") "b"];
   Model.mk "c" None [Field.mk "id" "serial" false true PyNone None None "c"]].

(** A database that records the statements it runs and fails on the
    statement [FAIL]. *)
Definition ex_execute_sql (s : list string) (sql : string) (params : list pyval)
  : list string * result unit :=
  if String.eqb sql "FAIL" then (s ++ ["partial"], Raise (Exception "statement failed" []))
  else (s ++ [sql], Ok ()).

Definition ex_rename_cols : gmap string string :=
  {["mail1" := "email"; "mail2" := "email"; "owner_id" := "owner"]}.

Definition ex_alter_statements : list statement :=
  [parse_node (drop_not_null PostgresqlMigrator "t" "m");
   parse_node (add_not_null PostgresqlMigrator "t" "n");
   parse_node (Clause [SQL "ALTER TABLE"; Entity "t"; SQL "DROP CONSTRAINT";
                       Entity "t_owner_id_fkey"]);
   parse_node (_create_foreign_key "t" ex_ref)].

Definition ex_nickname : Field.t :=
  Field.mk "nickname" "varchar(255)" false false PyNone None None "people".

Definition ex_plan : list statement :=
  [create_table ex_orders;
   parse_node (rename_table PostgresqlMigrator "users" "people");
   parse_node (alter_add_column PostgresqlMigrator "people" "signup_ip"
                 (Field.mk "signup_ip" "varchar(255)" true false PyNone None None "people"));
   parse_node (alter_add_column PostgresqlMigrator "people" "nickname" ex_nickname);
   not_null_warning;
   parse_node (add_not_null PostgresqlMigrator "people" "nickname");
   parse_node (add_not_null PostgresqlMigrator "people" "name");
   parse_node (Clause [SQL "DROP TABLE"; Entity "junk"])].

(** ** Confirmation and the entry point *)

(** How a call ends: it returns, raises an exception of the diff or of a
    statement, leaves the process through [sys.exit], or meets the end of
    the input in [raw_input]. *)
Inductive outcome (A : Type) :=
| Returns (a : A)
| Raises (e : exn)
| SystemExit (code : Z)
| EOFError.
Arguments Returns {A} a.
Arguments Raises {A} e.
Arguments SystemExit {A} code.
Arguments EOFError {A}.

(** [_confirm]: [stdin] holds the lines [raw_input] will read; the lines
    left unread are returned.  What is printed and the countdown are left
    out. *)
Fixpoint _confirm (stdin : list string) : outcome (list string) :=
  match stdin with
  | [] => EOFError
  | line :: stdin' =>
      let response := lower (strip line) in
      if String.eqb response "yes" then Returns stdin'
      else if String.eqb response "no" then SystemExit 1
      else _confirm stdin'
  end.

Section entry_point.

Variable all_models : list Model.t.
Variable iter_ops : operation → option (list operation).
Variable qc_parse_node : operation → string * list pyval.
Variable qc_create_table : Model.t → string * list pyval.
Variable schema : Type.
Variable execute_sql : schema → string → list pyval → schema * result unit.

(** [evolve]: [db] is what introspection reads of the database and [conn]
    the same database as the executor changes it. *)
Definition evolve (db : Database.t) (conn : connection schema) (stdin : list string)
    (interactive : bool) : connection schema * outcome unit :=
  match calc_changes all_models iter_ops db with
  | Raise e => (conn, Raises e)
  | Ok to_run =>
      if bool_decide (to_run = []) then (conn, Returns ())
      else
        let run (_ : unit) :=
          let (conn', r) :=
            _execute schema execute_sql conn
              (compile qc_parse_node qc_create_table <$> to_run) interactive in
          (conn', match r with
                  | Ok _ => Returns ()
                  | Raise e => Raises e
                  end) in
        if interactive then
          match _confirm stdin with
          | Returns _ => run ()
          | Raises e => (conn, Raises e)
          | SystemExit code => (conn, SystemExit code)
          | EOFError => (conn, EOFError)
          end
        else run ()
  end.

End entry_point.

(** ** Vocabulary of the further properties *)

Fixpoint all_digits (s : string) : bool :=
  match s with
  | EmptyString => true
  | String c s' => is_digit c && all_digits s'
  end.


(** What [_confirm] makes of a line of input, and the lines it asks
    again after. *)
Definition response (line : string) : string := lower (strip line).

Definition undecided (line : string) : Prop :=
  response line ≠ "yes" ∧ response line ≠ "no".

(** Two descriptions of a column that differ at most in the spelling of
    its type. *)
Definition same_column (c c' : ColumnMetadata.t) : Prop :=
  ColumnMetadata.name c = ColumnMetadata.name c' ∧
  normalize_column_type (ColumnMetadata.data_type c)
    = normalize_column_type (ColumnMetadata.data_type c') ∧
  ColumnMetadata.null c = ColumnMetadata.null c' ∧
  ColumnMetadata.primary_key c = ColumnMetadata.primary_key c' ∧
  ColumnMetadata.table c = ColumnMetadata.table c'.

(** The [ForeignKeyMetadata] built from a row of the catalog query. *)
Definition fk_of_row (row : string * string * string * string * string)
  : ForeignKeyMetadata.t :=
  let '(r0, r1, r2, r3, r4) := row in ForeignKeyMetadata.mk r0 r1 r2 r3 r4.

(** What the rename loop of [calc_table_changes] keeps true of its state,
    [init] being the state it starts with: the sets stay within the
    initial ones; a rename entry has its source among the tables to delete
    at the start and its target among the tables to add at the start, both
    no longer there; a table that has left a set is in an entry; no two
    entries have the same target. *)
Record table_invariant (init st : table_changes) : Prop := mk_table_invariant {
  ti_adds : tc_adds st ⊆ tc_adds init;
  ti_deletes : tc_deletes st ⊆ tc_deletes init;
  ti_entry : ∀ a t, tc_renames st !! a = Some t →
    (a ∈ tc_deletes init ∧ a ∉ tc_deletes st) ∧
    (t ∈ tc_adds init ∧ t ∉ tc_adds st);
  ti_target : ∀ t, t ∈ tc_adds init → t ∉ tc_adds st →
    ∃ a, tc_renames st !! a = Some t;
  ti_source : ∀ a, a ∈ tc_deletes init → a ∉ tc_deletes st →
    is_Some (tc_renames st !! a);
  ti_injective : ∀ a b t, tc_renames st !! a = Some t → tc_renames st !! b = Some t →
    a = b
}.

(** What the rename loop of [calc_column_changes] keeps true of its rename
    entries: the target of an entry was a new column at the start and its
    field names the source among its aliases; a column that is no longer to
    delete is the source of an entry. *)
Record column_accounting (dfields : gmap string Field.t) (init st : column_changes)
  : Prop := mk_column_accounting {
  ca_alias : ∀ k v, cc_rename_cols st !! k = Some v →
    v ∈ cc_new_cols init ∧
    ∃ field akas, dfields !! v = Some field ∧ Field.akas field = Some akas ∧ k ∈ akas;
  ca_source : ∀ k, k ∈ cc_delete_cols init → k ∉ cc_delete_cols st →
    is_Some (cc_rename_cols st !! k)
}.

(** The existing columns and foreign keys of a table are what the declared
    fields ask for: the same column names, no definition changed, and a
    foreign-key constraint exactly on the columns of the foreign-key
    fields. *)
Definition columns_up_to_date (ntn : string)
    (existing_columns : list ColumnMetadata.t) (defined_fields : list Field.t)
    (existing_fks : list ForeignKeyMetadata.t) : Prop :=
  dom (existing_cols_by_name existing_columns)
    = dom (defined_cols_by_name ntn defined_fields) ∧
  (∀ cn existing_col defined_col,
     existing_cols_by_name existing_columns !! cn = Some existing_col →
     defined_cols_by_name ntn defined_fields !! cn = Some defined_col →
     column_def_changed existing_col defined_col = false) ∧
  (∀ cn field,
     defined_fields_by_column_name defined_fields !! cn = Some field →
     is_ForeignKeyField field
     = bool_decide (is_Some (existing_fks_by_column existing_fks !! cn))).


(** ** Further worked examples *)

(** The database of the scenario once its plan has run. *)
Definition ex_migrated_db : Database.t :=
  Database.mk "PostgresqlDatabase" ["people"; "orders"]
    (λ table,
       if String.eqb table "people" then
         [ColumnMetadata.mk "id" "integer" false true "people";
          ColumnMetadata.mk "name" "character varying" false false "people";
          ColumnMetadata.mk "email" "character varying" true false "people";
          ColumnMetadata.mk "signup_ip" "character varying" true false "people";
          ColumnMetadata.mk "nickname" "character varying" false false "people"]
       else
         [ColumnMetadata.mk "id" "integer" false true "orders";
          ColumnMetadata.mk "person_id" "integer" false false "orders"])
    (λ _, [("person_id", "people", "id", "orders", "orders_person_id_fkey")]).

(** A database without tables. *)
Definition ex_empty_db : Database.t :=
  Database.mk "PostgresqlDatabase" [] (λ _, []) (λ _, []).

(** The columns of [ex_existing_columns] as another dialect spells their
    types. *)
Definition ex_respelled_columns : list ColumnMetadata.t :=
  [ColumnMetadata.mk "id" "SERIAL" false true "t";
   ColumnMetadata.mk "mail1" "varchar(80)" true false "t";
   ColumnMetadata.mk "mail2" "VARCHAR" true false "t";
   ColumnMetadata.mk "owner_id" "Integer" true false "t";
   ColumnMetadata.mk "ref_id" "integer" true false "t";
   ColumnMetadata.mk "n" "serial" true false "t";
   ColumnMetadata.mk "m" "INTEGER" false false "t";
   ColumnMetadata.mk "legacy" "TEXT" true false "t"].

(** A query compiler that renders every statement as the same text. *)
Definition ex_qc_parse_node (op : operation) : string * list pyval := ("ALTER", []).

Definition ex_qc_create_table (model_class : Model.t) : string * list pyval :=
  ("CREATE", []).
(** * Properties *)

(** ** The error monad and its loops *)

Lemma bind_Ok {A B} (r : result A) (k : A → result B) (b : B) :
  bind r k = Ok b → ∃ a, r = Ok a ∧ k a = Ok b.
Proof. destruct r as [a|e]; simpl; [eauto | discriminate]. Qed.

Lemma for_each_app {A S} (body : S → A → result S) (l1 l2 : list A) (s : S) :
  for_each body (l1 ++ l2) s = bind (for_each body l1 s) (for_each body l2).
Proof.
  revert s. induction l1 as [|x l1 IH]; intros s; simpl; [done|].
  destruct (body s x); simpl; auto.
Qed.

Lemma for_each_cons {A S} (body : S → A → result S) (x : A) (l : list A) (s : S) :
  for_each body (x :: l) s = bind (body s x) (for_each body l).
Proof. simpl. by destruct (body s x). Qed.

(** An invariant kept by the body is kept by the loop. *)
Lemma for_each_invariant {A S} (P : S → Prop) (body : S → A → result S) (l : list A) :
  (∀ s x s', x ∈ l → P s → body s x = Ok s' → P s') →
  ∀ s s', P s → for_each body l s = Ok s' → P s'.
Proof.
  induction l as [|x l IH]; intros Hbody s s' Hs Hrun; simpl in Hrun.
  - by simplify_eq.
  - destruct (body s x) as [s1|] eqn:Hx; [|done].
    apply (IH (λ s0 y s0' Hy, Hbody s0 y s0' (list_elem_of_further _ _ _ Hy)) s1 s'); [|done].
    eapply Hbody; [|done..]. apply list_elem_of_here.
Qed.

(** ** The topological order *)

Lemma placeable_spec names placed m :
  pw.placeable names placed m = true ↔
  ∀ t, t ∈ pw.fk_targets m → t ∈ names → t ∈ placed.
Proof.
  unfold pw.placeable. rewrite forallb_forall. split.
  - intros H t Ht Hn. apply list_elem_of_In, H in Ht. by apply bool_decide_eq_true in Ht; auto.
  - intros H t Ht. apply bool_decide_eq_true. intros Hn. apply H; [|done].
    by apply list_elem_of_In.
Qed.

Lemma place_sound names fuel : ∀ pending placed l,
  pw.place fuel names pending placed = Ok l →
  ∃ l', l = placed ++ l' ∧ l' ≡ₚ pending ∧
        ∀ l1 m l2, l' = l1 ++ m :: l2 →
          pw.placeable names (Model.db_table <$> (placed ++ l1)) m = true.
Proof.
  induction fuel as [|fuel IH]; intros [|p pending] placed l H;
    cbn [pw.place] in H.
  - simplify_eq. exists []. rewrite app_nil_r. split_and!; [done..|].
    intros [|??] ?? ?; discriminate.
  - discriminate.
  - simplify_eq. exists []. rewrite app_nil_r. split_and!; [done..|].
    intros [|??] ?? ?; discriminate.
  - destruct (list_find _ (p :: pending)) as [[i m]|] eqn:Hfind; [|discriminate].
    apply list_find_Some in Hfind as (Hi & Hm & _).
    apply IH in H as (l' & -> & Hperm & Hord).
    exists (m :: l'). split_and!.
    + by rewrite <-app_assoc.
    + rewrite Hperm. symmetry. by apply delete_Permutation.
    + intros [|m1 l1] m2 l2 Heq; simplify_eq/=.
      * by rewrite app_nil_r.
      * specialize (Hord l1 m2 l2 eq_refl). by rewrite <-app_assoc in Hord.
Qed.

Lemma sort_models_topologically_sound models l :
  pw.sort_models_topologically models = Ok l →
  l ≡ₚ models ∧
  ∀ j m t, l !! j = Some m → t ∈ pw.fk_targets m → t ∈ Model.db_table <$> l →
    ∃ i, i < j ∧ (Model.db_table <$> l) !! i = Some t.
Proof.
  unfold pw.sort_models_topologically. intros H.
  apply place_sound in H as (l' & -> & Hperm & Hord). simpl in *.
  split; [done|]. intros j m t Hj Ht Hin.
  specialize (Hord (take j l') m (drop (S j) l')).
  rewrite take_drop_middle in Hord by done. specialize (Hord eq_refl).
  rewrite placeable_spec in Hord.
  assert (t ∈ Model.db_table <$> take j l') as Hpre.
  { apply Hord; [done|]. by rewrite <-Hperm. }
  apply list_elem_of_lookup in Hpre as [i Hi]. exists i.
  rewrite fmap_take, lookup_take_Some in Hi. tauto.
Qed.

(** ** Dict comprehensions *)

Lemma dict_by_snoc {V} (key : V → string) (l : list V) (x : V) :
  dict_by key (l ++ [x]) = <[key x := x]> (dict_by key l).
Proof. unfold dict_by. by rewrite foldl_snoc. Qed.

Lemma dict_by_lookup_Some {V} (key : V → string) (l : list V) k v :
  dict_by key l !! k = Some v → key v = k ∧ v ∈ l.
Proof.
  induction l as [|x l IH] using rev_ind; [done|].
  rewrite dict_by_snoc, lookup_insert. case_decide.
  - intros; simplify_eq. split; [done|]. apply elem_of_app; right. apply list_elem_of_here.
  - intros [??]%IH. split; [done|]. apply elem_of_app; by left.
Qed.

Lemma dict_by_dom {V} (key : V → string) (l : list V) k :
  k ∈ dom (dict_by key l) ↔ k ∈ key <$> l.
Proof.
  induction l as [|x l IH] using rev_ind.
  - unfold dict_by; simpl. rewrite dom_empty_L. set_solver.
  - rewrite dict_by_snoc, dom_insert_L, fmap_app, elem_of_app, elem_of_union, IH.
    simpl. rewrite elem_of_singleton, list_elem_of_singleton. tauto.
Qed.

Lemma table_names_to_models_dict all_models :
  table_names_to_models all_models = dict_by Model.db_table all_models.
Proof. done. Qed.

(** The dict [sort_by_fk_deps] builds is [table_names_to_models] restricted
    to [table_names]. *)
Lemma filtered_models_lookup all_models (table_names : gset string) k :
  foldl (λ (d : gmap string Model.t) cls,
           if decide (Model.db_table cls ∈ table_names)
           then <[Model.db_table cls := cls]> d else d) ∅ all_models !! k
  = if decide (k ∈ table_names) then table_names_to_models all_models !! k else None.
Proof.
  rewrite table_names_to_models_dict.
  induction all_models as [|x l IH] using rev_ind.
  - simpl. unfold dict_by; simpl. rewrite !lookup_empty. by case_decide.
  - rewrite foldl_snoc, dict_by_snoc.
    destruct (decide (Model.db_table x ∈ table_names)) as [Hx|Hx].
    + rewrite !lookup_insert, IH.
      destruct (decide (Model.db_table x = k)) as [<-|]; [by rewrite decide_True|done].
    + rewrite IH. destruct (decide (k ∈ table_names)); [|done].
      rewrite lookup_insert_ne; [done|]. by intros <-.
Qed.

Lemma fst_snd_keyed {V} (key : V → string) (d : gmap string V) :
  (∀ k v, d !! k = Some v → key v = k) →
  key <$> (map_to_list d).*2 = (map_to_list d).*1.
Proof.
  intros Hkey. rewrite <-list_fmap_compose. apply list_fmap_ext.
  intros i [k v] Hi. simpl. apply Hkey, elem_of_map_to_list.
  by eapply list_elem_of_lookup_2.
Qed.

Lemma sort_by_fk_deps_sound all_models (table_names : gset string) l :
  sort_by_fk_deps all_models table_names = Ok l →
  NoDup l ∧
  (∀ t, t ∈ l ↔ t ∈ table_names ∧ is_Some (table_names_to_models all_models !! t)) ∧
  fk_ordered all_models l.
Proof.
  unfold sort_by_fk_deps. intros H.
  apply bind_Ok in H as (ms & Hsort & H). simplify_eq.
  set (d := foldl _ ∅ all_models) in *.
  assert (Hd : ∀ k, d !! k = if decide (k ∈ table_names)
                             then table_names_to_models all_models !! k else None)
    by apply filtered_models_lookup.
  assert (Hkey : ∀ k v, d !! k = Some v → Model.db_table v = k).
  { intros k v. rewrite Hd. case_decide; [|done].
    rewrite table_names_to_models_dict. by intros [??]%dict_by_lookup_Some. }
  apply sort_models_topologically_sound in Hsort as [Hperm Hord].
  assert (Hnames : Model.db_table <$> ms ≡ₚ (map_to_list d).*1).
  { rewrite Hperm. by rewrite (fst_snd_keyed _ _ Hkey). }
  assert (Hmem : ∀ t, t ∈ Model.db_table <$> ms ↔
                      t ∈ table_names ∧ is_Some (table_names_to_models all_models !! t)).
  { intros t. rewrite Hnames, list_elem_of_fmap. split.
    - intros ([k v] & -> & Hkv). apply elem_of_map_to_list in Hkv. simpl.
      rewrite Hd in Hkv. case_decide; [|done]. eauto.
    - intros [Ht [v Hv]]. exists (t, v). split; [done|].
      apply elem_of_map_to_list. rewrite Hd. by rewrite decide_True. }
  split_and!.
  - rewrite Hnames. apply NoDup_fst_map_to_list.
  - done.
  - intros j t t' Hj Ht' Hin.
    apply list_lookup_fmap_Some in Hj as (m & -> & Hj).
    apply (Hord j m t' Hj); [|done].
    assert (d !! Model.db_table m = Some m) as Hm.
    { assert (m ∈ (map_to_list d).*2) as Hm.
      { rewrite <-Hperm. by eapply list_elem_of_lookup_2. }
      apply list_elem_of_fmap in Hm as ([k v] & -> & Hkv).
      apply elem_of_map_to_list in Hkv. simpl. by rewrite (Hkey _ _ Hkv). }
    rewrite Hd in Hm. case_decide; [|done].
    unfold fk_deps in Ht'. by rewrite Hm in Ht'.
Qed.

(** A list without duplicates in which every dependency comes first has no
    dependency cycle. *)
Lemma fk_ordered_acyclic all_models (table_names : gset string) l :
  NoDup l →
  (∀ t, t ∈ l ↔ t ∈ table_names ∧ is_Some (table_names_to_models all_models !! t)) →
  fk_ordered all_models l →
  ∀ t, ¬ tc (depends all_models table_names) t t.
Proof.
  intros Hnd Hmem Hord.
  assert (Hstep : ∀ t t', tc (depends all_models table_names) t t' →
            ∃ i j, i < j ∧ l !! i = Some t' ∧ l !! j = Some t).
  { induction 1 as [t t' (Ht & Ht' & Hdep)|t u t' (Ht & Hu & Hdep) _ IH].
    - apply Hmem, list_elem_of_lookup in Ht as [j Hj].
      destruct (Hord j t t' Hj Hdep) as (i & ? & ?); [by apply Hmem|]. eauto.
    - apply Hmem, list_elem_of_lookup in Ht as [j Hj].
      destruct (Hord j t u Hj Hdep) as (i & ? & Hi); [by apply Hmem|].
      destruct IH as (i' & j' & ? & ? & Hj').
      assert (i = j') by (by eapply NoDup_lookup). subst.
      exists i', j. split_and!; [lia|done..]. }
  intros t (i & j & Hlt & Hi & Hj)%Hstep.
  assert (i = j) by (by eapply NoDup_lookup). lia.
Qed.

(** ** The rename loop of the table-level diff *)

Lemma set_remove_Ok x s s' : set_remove x s = Ok s' → x ∈ s ∧ s' = s ∖ {[x]}.
Proof. unfold set_remove. case_decide; naive_solver. Qed.

Lemma getitem_Ok {V} (d : gmap string V) k v : getitem d k = Ok v → d !! k = Some v.
Proof. unfold getitem. destruct (d !! k); naive_solver. Qed.

Lemma aka_loop_Ok to_add akas st st' :
  aka_loop to_add akas st = Ok st' →
  (st' = st ∧ ∀ a, a ∈ akas → a ∉ tc_deletes st) ∨
  (∃ l1 a l2, akas = l1 ++ a :: l2 ∧ (∀ b, b ∈ l1 → b ∉ tc_deletes st) ∧
     a ∈ tc_deletes st ∧ to_add ∈ tc_adds st ∧
     st' = mk_table_changes (tc_adds st ∖ {[to_add]}) (tc_deletes st ∖ {[a]})
             (<[a := to_add]> (tc_renames st))).
Proof.
  induction akas as [|a akas IH]; simpl.
  - intros; simplify_eq. left. split; [done|]. by intros a ?%elem_of_nil.
  - destruct (decide (a ∈ tc_deletes st)) as [Ha|Ha].
    + intros (adds & [? ->]%set_remove_Ok & (deletes & [? ->]%set_remove_Ok & Heq)%bind_Ok)%bind_Ok.
      simplify_eq. right. exists [], a, akas. split_and!; try done.
      by intros b ?%elem_of_nil.
    + intros [[-> Hno]|(l1 & b & l2 & -> & Hl1 & Hb & Hadd & ->)]%IH.
      * left. split; [done|]. intros b [->|?]%elem_of_cons; auto.
      * right. exists (a :: l1), b, l2. split_and!; try done.
        intros c [->|?]%elem_of_cons; auto.
Qed.

Section table_loop.

Variable all_models : list Model.t.

Lemma table_summary_nil st : table_summary all_models [] st st.
Proof. split; auto. intros; done. Qed.

Lemma table_summary_trans l1 l2 st st1 st2 :
  table_summary all_models l1 st st1 → table_summary all_models l2 st1 st2 →
  table_summary all_models (l1 ++ l2) st st2.
Proof.
  intros [A1 D1 N1 K1 L1] [A2 D2 N2 K2 L2]. split.
  - set_solver.
  - set_solver.
  - intros a t [H|(? & ? & ?)]%N2.
    + apply N1 in H as [H|(? & ? & ?)]; [by left|]. right. rewrite elem_of_app. auto.
    + right. rewrite elem_of_app. split_and!; auto.
  - intros a t H Ha. apply K2; [by apply K1|]. set_solver.
  - intros t Ht Hnot. setoid_rewrite elem_of_app.
    destruct (decide (t ∈ tc_adds st1)) as [H1|H1].
    + destruct (L2 t H1 Hnot) as (? & a & ? & ?). split; [auto|]. exists a. split; [done|]. set_solver.
    + destruct (L1 t Ht H1) as (? & a & ? & ?). split; [auto|]. by exists a.
Qed.

Lemma table_step_summary st to_add st' :
  table_step all_models st to_add = Ok st' →
  table_summary all_models [to_add] st st'.
Proof.
  unfold table_step. intros (cls & Hcls%getitem_Ok & H)%bind_Ok.
  assert (Hal : aliases_of all_models to_add = aliases cls).
  { unfold aliases_of. by rewrite Hcls. }
  destruct (Model.aka cls) as [akas|] eqn:Haka; [|simplify_eq; split; auto; intros; done].
  apply aka_loop_Ok in H as [[-> _]|(l1 & a & l2 & Hakas & _ & Ha & Hadd & ->)];
    [split; auto; intros; done|].
  assert (a ∈ aliases_of all_models to_add) as Hin.
  { rewrite Hal. unfold aliases. rewrite Haka, Hakas. set_solver. }
  split; simpl.
  - set_solver.
  - set_solver.
  - intros k t. rewrite lookup_insert. case_decide; intros; simplify_eq; [|by left].
    right. split_and!; [set_solver|done..].
  - intros k t Hk Hnot. rewrite lookup_insert_ne; [done|]. by intros ->.
  - intros t Ht Hnot. destruct (decide (t = to_add)) as [->|Hne].
    + split; [apply list_elem_of_here|]. by exists a.
    + exfalso. apply Hnot. apply elem_of_difference. split; [done|].
      by rewrite elem_of_singleton.
Qed.

Lemma table_loop_summary l : ∀ st st',
  for_each (table_step all_models) l st = Ok st' →
  table_summary all_models l st st'.
Proof.
  induction l as [|x l IH]; intros st st' H; simpl in H.
  - simplify_eq. apply table_summary_nil.
  - destruct (table_step all_models st x) as [st1|] eqn:Hx; [|done].
    apply (table_summary_trans [x] l _ st1).
    + by apply table_step_summary.
    + by apply IH.
Qed.

Lemma table_step_resolved st to_add st' :
  renames_resolved st →
  table_step all_models st to_add = Ok st' → renames_resolved st'.
Proof.
  unfold table_step. intros Hres (cls & Hcls%getitem_Ok & H)%bind_Ok.
  destruct (Model.aka cls) as [akas|]; [|by simplify_eq].
  apply aka_loop_Ok in H as [[-> _]|(l1 & a & l2 & Hakas & _ & Ha & Hadd & ->)]; [done|].
  intros k t. simpl. rewrite lookup_insert. case_decide.
  - intros; simplify_eq. set_solver.
  - intros [??]%Hres. set_solver.
Qed.

Lemma table_loop_resolved l st st' :
  renames_resolved st →
  for_each (table_step all_models) l st = Ok st' → renames_resolved st'.
Proof.
  apply (for_each_invariant renames_resolved). intros s x s' _. apply table_step_resolved.
Qed.

End table_loop.

(** ** The table-level diff *)

Lemma calc_table_changes_Ok all_models existing_tables adds deletes renames :
  calc_table_changes all_models existing_tables = Ok (adds, deletes, renames) →
  ∃ st,
    for_each (table_step all_models)
      (elements (tc_adds (table_changes_init all_models existing_tables)))
      (table_changes_init all_models existing_tables) = Ok st ∧
    sort_by_fk_deps all_models (tc_adds st) = Ok adds ∧
    deletes = tc_deletes st ∧ renames = tc_renames st.
Proof.
  unfold calc_table_changes, table_changes_init. simpl.
  intros (st & Hst & (l & Hsort & Heq)%bind_Ok)%bind_Ok.
  exists st. by simplify_eq.
Qed.

Lemma first_match_unique {A} (P : A → Prop) (l1 l1' l2 l2' : list A) (a a' : A) :
  l1 ++ a :: l2 = l1' ++ a' :: l2' →
  (∀ b, b ∈ l1 → ¬ P b) → P a → (∀ b, b ∈ l1' → ¬ P b) → P a' →
  l1 = l1' ∧ a = a'.
Proof.
  revert l1'. induction l1 as [|x l1 IH]; intros [|x' l1'] Heq H1 Ha H1' Ha';
    simplify_eq/=.
  - done.
  - exfalso. apply (H1' x'); [apply list_elem_of_here|done].
  - exfalso. apply (H1 a'); [apply list_elem_of_here|done].
  - destruct (IH l1') as [-> ->]; try done.
    + intros b Hb. apply H1. by apply list_elem_of_further.
    + intros b Hb. apply H1'. by apply list_elem_of_further.
Qed.

Lemma table_adds_declared all_models existing_tables t :
  t ∈ tc_adds (table_changes_init all_models existing_tables) →
  is_Some (table_names_to_models all_models !! t).
Proof. simpl. intros [H _]%elem_of_difference. by apply elem_of_dom. Qed.

(** C3 -- alias-based table renames.  Let the rename loop of
    [calc_table_changes] reach the declared table [to_add] of the add-set
    in state [st].  If [a] is the first alias of [to_add], in list order,
    found in the delete-set of [st] -- in particular if it is the one alias
    found there -- the result has exactly one rename for the pair, [a] to
    [to_add], and neither creates [to_add] nor drops [a].  If none of the
    aliases of [to_add] is in the delete-set the loop starts with, [to_add]
    is created and nothing is renamed to it. *)
Theorem calc_table_changes_alias_rename
    all_models existing_tables adds deletes renames pre to_add post :
  calc_table_changes all_models existing_tables = Ok (adds, deletes, renames) →
  elements (tc_adds (table_changes_init all_models existing_tables))
    = pre ++ to_add :: post →
  ∃ st,
    for_each (table_step all_models) pre
      (table_changes_init all_models existing_tables) = Ok st ∧
    (∀ l1 a l2,
       aliases_of all_models to_add = l1 ++ a :: l2 →
       (∀ b, b ∈ l1 → b ∉ tc_deletes st) → a ∈ tc_deletes st →
       renamed_pair adds deletes renames a to_add) ∧
    (∀ a,
       a ∈ aliases_of all_models to_add → a ∈ tc_deletes st →
       (∀ b, b ∈ aliases_of all_models to_add → b ∈ tc_deletes st → b = a) →
       renamed_pair adds deletes renames a to_add) ∧
    ((∀ a, a ∈ aliases_of all_models to_add →
           a ∉ tc_deletes (table_changes_init all_models existing_tables)) →
     pure_add adds renames to_add).
Proof.
  intros (stf & Hloop & Hsort & -> & ->)%calc_table_changes_Ok Hsplit.
  set (init := table_changes_init all_models existing_tables) in *.
  assert (NoDup (pre ++ to_add :: post)) as Hnd.
  { rewrite <-Hsplit. apply NoDup_elements. }
  apply NoDup_app in Hnd as (_ & Hpre & [Hpost _]%NoDup_cons).
  assert (to_add ∉ pre) as Hpre' by (intros ?; eapply Hpre; [done|apply list_elem_of_here]).
  assert (to_add ∈ tc_adds init) as Hadd0.
  { apply elem_of_elements. rewrite Hsplit. apply elem_of_app; right. apply list_elem_of_here. }
  pose proof (table_loop_summary all_models _ _ _ Hloop) as Hall.
  rewrite Hsplit, for_each_app in Hloop.
  apply bind_Ok in Hloop as (st & Hst & Hloop). simpl in Hloop.
  destruct (table_step all_models st to_add) as [st1|] eqn:Hstep; [|done].
  pose proof (table_loop_summary all_models _ _ _ Hst) as Spre.
  pose proof (table_loop_summary all_models _ _ _ Hloop) as Spost.
  apply sort_by_fk_deps_sound in Hsort as (_ & Hmem & _).
  exists st. split; [done|].
  assert (Hfirst : ∀ l1 a l2,
            aliases_of all_models to_add = l1 ++ a :: l2 →
            (∀ b, b ∈ l1 → b ∉ tc_deletes st) → a ∈ tc_deletes st →
            renamed_pair adds (tc_deletes stf) (tc_renames stf) a to_add).
  { intros l1 a l2 Hal Hl1 Ha.
    unfold table_step in Hstep.
    apply bind_Ok in Hstep as (cls & Hcls%getitem_Ok & Hstep).
    unfold aliases_of in Hal. rewrite Hcls in Hal. unfold aliases in Hal.
    destruct (Model.aka cls) as [akas|]; [|by destruct l1].
    apply aka_loop_Ok in Hstep as [[-> Hno]|(l1' & a' & l2' & Hakas & Hl1' & Ha' & _ & ->)].
    { exfalso. apply (Hno a); [|done]. rewrite Hal. apply elem_of_app; right.
      apply list_elem_of_here. }
    rewrite Hal in Hakas.
    destruct (first_match_unique (λ b, b ∈ tc_deletes st) _ _ _ _ _ _ Hakas)
      as [-> ->]; try done.
    assert (tc_renames stf !! a' = Some to_add) as Hren.
    { apply (ts_keep _ _ _ _ Spost); simpl; [by rewrite lookup_insert_eq|set_solver]. }
    split_and!.
    - done.
    - intros k Hk. apply (ts_new _ _ _ _ Spost) in Hk as [Hk|(? & _)]; [|done].
      simpl in Hk. rewrite lookup_insert in Hk. case_decide; [done|].
      apply (ts_new _ _ _ _ Spre) in Hk as [Hk|(? & _)]; [|done].
      unfold init in Hk; simpl in Hk. by rewrite lookup_empty in Hk.
    - intros [Hin _]%Hmem. apply (ts_adds _ _ _ _ Spost) in Hin. set_solver.
    - intros Hin. apply (ts_deletes _ _ _ _ Spost) in Hin. set_solver. }
  split_and!.
  - done.
  - intros a Hin Ha Honly.
    apply list_elem_of_split_l in Hin as (l1 & l2 & Hal & Hnot).
    apply (Hfirst l1 a l2); [done| |done].
    intros b Hb Hbd. assert (b = a) as ->; [|done].
    apply Honly; [|done]. rewrite Hal. apply elem_of_app; by left.
  - intros Hno. split.
    + apply Hmem. split; [|by eapply table_adds_declared].
      destruct (decide (to_add ∈ tc_adds stf)) as [|Hleft]; [done|].
      destruct (ts_left _ _ _ _ Hall to_add Hadd0 Hleft) as (_ & a & Ha & Hd).
      by destruct (Hno a Ha).
    + intros k Hk. apply (ts_new _ _ _ _ Hall) in Hk as [Hk|(_ & Hd & Ha)].
      * unfold init in Hk; simpl in Hk. by rewrite lookup_empty in Hk.
      * by destruct (Hno k Ha).
Qed.

(** In a finite set in which every member has a successor, some member
    reaches itself. *)
Lemma successor_cycle (R : relation string) (S : list string) x :
  x ∈ S →
  (∀ x, x ∈ S → ∃ y, y ∈ S ∧ R x y) →
  ∃ z, tc R z z.
Proof.
  intros Hx Hsucc.
  assert (Hwalk : ∀ k visited x,
            x ∈ S → NoDup visited →
            (∀ v, v ∈ visited → v ∈ S ∧ tc R v x) →
            length S ≤ k + length visited → ∃ z, tc R z z).
  { clear x Hx. induction k as [|k IH]; intros visited x Hx Hnd Hvis Hlen.
    - destruct (decide (x ∈ visited)) as [Hin|Hin]; [exists x; by apply Hvis|].
      assert (x :: visited ⊆+ S) as Hsub%submseteq_length.
      { apply NoDup_submseteq; [by constructor|].
        intros v [->|Hv]%elem_of_cons; [done|]. by apply Hvis. }
      simpl in Hsub. lia.
    - destruct (decide (x ∈ visited)) as [Hin|Hin]; [exists x; by apply Hvis|].
      destruct (Hsucc x Hx) as (y & Hy & Hxy).
      apply (IH (x :: visited) y); [done|by constructor| |simpl; lia].
      intros v [->|Hv]%elem_of_cons.
      + split; [done|]. by apply tc_once.
      + destruct (Hvis v Hv) as [? ?]. split; [done|]. by eapply tc_r. }
  apply (Hwalk (length S) [] x); [done|constructor| |lia].
  by intros v ?%elem_of_nil.
Qed.

(** When the sort raises, it stopped with models left of which none could
    be placed. *)
Lemma place_stuck names fuel : ∀ pending placed e,
  length pending ≤ fuel →
  pw.place fuel names pending placed = Raise e →
  ∃ placed' pending' m,
    m ∈ pending' ∧ placed' ++ pending' ≡ₚ placed ++ pending ∧
    Forall (λ m, pw.placeable names (Model.db_table <$> placed') m ≠ true) pending'.
Proof.
  induction fuel as [|fuel IH]; intros [|p pending] placed e Hlen H;
    cbn [pw.place] in H; try done.
  - simpl in Hlen. lia.
  - destruct (list_find _ (p :: pending)) as [[i m]|] eqn:Hfind.
    + apply list_find_Some in Hfind as (Hi & _ & _).
      apply IH in H as (placed' & pending' & m' & Hm' & Hperm & Hstuck).
      * exists placed', pending', m'. split_and!; [done| |done].
        rewrite Hperm, <-app_assoc. f_equiv. simpl. symmetry. by apply delete_Permutation.
      * rewrite length_delete by eauto. simpl in *. lia.
    + apply list_find_None in Hfind.
      exists placed, (p :: pending), p. split_and!; [apply list_elem_of_here|done|done].
Qed.

Lemma tc_mono {A} (R R' : relation A) x y :
  (∀ a b, R a b → R' a b) → tc R x y → tc R' x y.
Proof. intros HR. apply (tc_congruence id R' x y HR). Qed.

(** When [sort_by_fk_deps] raises, the foreign keys among the declared
    tables of [table_names] form a cycle. *)
Lemma sort_by_fk_deps_complete all_models (table_names : gset string) e :
  sort_by_fk_deps all_models table_names = Raise e →
  ∃ t, tc (depends all_models table_names) t t.
Proof.
  unfold sort_by_fk_deps.
  set (d := foldl _ ∅ all_models).
  assert (Hd : ∀ k, d !! k = if decide (k ∈ table_names)
                             then table_names_to_models all_models !! k else None)
    by apply filtered_models_lookup.
  assert (Hkey : ∀ k v, d !! k = Some v → Model.db_table v = k).
  { intros k v. rewrite Hd. case_decide; [|done].
    rewrite table_names_to_models_dict. by intros [??]%dict_by_lookup_Some. }
  assert (Hmodel : ∀ m, m ∈ (map_to_list d).*2 → d !! Model.db_table m = Some m).
  { intros m ([k v] & -> & Hkv)%list_elem_of_fmap.
    apply elem_of_map_to_list in Hkv. simpl. by rewrite (Hkey _ _ Hkv). }
  destruct (pw.sort_models_topologically (map_to_list d).*2) as [l|e'] eqn:Hsort;
    [done|]. intros _.
  unfold pw.sort_models_topologically in Hsort.
  apply place_stuck in Hsort as (placed & pending & m0 & Hm0 & Hperm & Hstuck); [|done].
  simpl in Hperm.
  assert (Hsucc : ∀ t, t ∈ Model.db_table <$> pending →
            ∃ t', t' ∈ Model.db_table <$> pending ∧ depends all_models table_names t t').
  { intros t (m & -> & Hm)%list_elem_of_fmap.
    assert (d !! Model.db_table m = Some m) as Hdm.
    { apply Hmodel. rewrite <-Hperm. apply elem_of_app. by right. }
    rewrite Forall_forall in Hstuck. specialize (Hstuck m Hm).
    rewrite placeable_spec in Hstuck.
    assert (∃ t', t' ∈ pw.fk_targets m ∧ t' ∈ Model.db_table <$> (map_to_list d).*2 ∧
                  t' ∉ Model.db_table <$> placed) as (t' & Ht' & Hin & Hnot).
    { destruct (decide (Exists (λ t', t' ∈ Model.db_table <$> (map_to_list d).*2 ∧
                                      t' ∉ Model.db_table <$> placed) (pw.fk_targets m)))
        as [Hex|Hnex].
      - apply Exists_exists in Hex as (t' & ? & ? & ?). eauto.
      - exfalso. apply Hstuck. intros t' Ht' Hin.
        destruct (decide (t' ∈ Model.db_table <$> placed)) as [|Hnp]; [done|].
        exfalso. apply Hnex, Exists_exists. eauto. }
    assert (t' ∈ Model.db_table <$> pending) as Hpend.
    { rewrite <-Hperm, fmap_app, elem_of_app in Hin. by destruct Hin. }
    exists t'. split; [done|].
    apply list_elem_of_fmap in Hin as (m' & -> & Hm').
    apply Hmodel in Hm'. rewrite Hd in Hdm, Hm'.
    destruct (decide (Model.db_table m ∈ table_names)); [|done].
    destruct (decide (Model.db_table m' ∈ table_names)); [|done].
    unfold depends, fk_deps. rewrite Hdm. split_and!; eauto. }
  apply (successor_cycle (depends all_models table_names)
           (Model.db_table <$> pending) (Model.db_table m0)); [|done].
  by apply list_elem_of_fmap_2.
Qed.

(** C4 -- creation order.  The list [sort_by_fk_deps] returns holds, once
    each, the declared tables of [table_names], every one after the tables
    of the list it foreign-keys into; when the foreign keys among those
    tables form a cycle no list is returned: an exception is raised, and
    it is raised in that case only. *)
Theorem sort_by_fk_deps_topological all_models (table_names : gset string) :
  (∀ adds, sort_by_fk_deps all_models table_names = Ok adds →
     NoDup adds ∧
     (∀ t, t ∈ adds ↔
           t ∈ table_names ∧ is_Some (table_names_to_models all_models !! t)) ∧
     fk_ordered all_models adds) ∧
  ((∃ t, tc (depends all_models table_names) t t) ↔
   ∃ e, sort_by_fk_deps all_models table_names = Raise e).
Proof.
  split; [|split].
  - intros adds. apply sort_by_fk_deps_sound.
  - intros [t Hcycle].
    destruct (sort_by_fk_deps all_models table_names) as [adds|e] eqn:Hsort; [|by exists e].
    apply sort_by_fk_deps_sound in Hsort as (Hnd & Hmem & Hord).
    by destruct (fk_ordered_acyclic all_models table_names adds Hnd Hmem Hord t).
  - intros [e He]. by eapply sort_by_fk_deps_complete.
Qed.

(** ** The rename loop of the column-level diff *)

Lemma column_summary_refl st : column_summary st st.
Proof. by split. Qed.

Lemma column_summary_trans st st1 st2 :
  column_summary st st1 → column_summary st1 st2 → column_summary st st2.
Proof.
  intros [N1 D1 K1] [N2 D2 K2]. split.
  - set_solver.
  - set_solver.
  - intros k v Hk Hnot. apply K2; [by apply K1|]. set_solver.
Qed.

Section column_rename_loop.

Variable ntn : string.
Variable existing_columns : list ColumnMetadata.t.
Variable defined_fields : list Field.t.

Let ecols := existing_cols_by_name existing_columns.
Let dcols := defined_cols_by_name ntn defined_fields.
Let dfields := defined_fields_by_column_name defined_fields.

Lemma aka_step_Ok cn sc st aka st' :
  aka_step ecols cn sc st aka = Ok st' →
((aka ∉ cc_delete_cols st) ∧ st' = st) ∨
  (aka ∈ cc_delete_cols st ∧
   st' = mk_column_changes (cc_new_cols st ∖ {[cn]}) (cc_delete_cols st ∖ {[aka]})
           (<[aka := ColumnMetadata.name sc]> (cc_rename_cols st))).
Proof.
  unfold aka_step. destruct (decide (aka ∈ cc_delete_cols st)) as [Hin|Hin].
  - intros (ec & Hec%getitem_Ok & H)%bind_Ok. right. split; [done|].
    apply dict_by_lookup_Some in Hec as [Hname _].
    unfold can_convert, set_discard in H. rewrite Hname in H. by simplify_eq.
  - intros; simplify_eq. by left.
Qed.

Lemma aka_steps_summary cn sc akas : ∀ st st',
  for_each (aka_step ecols cn sc) akas st = Ok st' →
  column_summary st st' ∧
  ∀ aka, aka ∈ akas → aka ∈ cc_delete_cols st →
    cc_rename_cols st' !! aka = Some (ColumnMetadata.name sc) ∧
    (aka ∉ cc_delete_cols st') ∧ (cn ∉ cc_new_cols st').
Proof.
  induction akas as [|a akas IH]; intros st st' H; simpl in H.
  - simplify_eq. split; [apply column_summary_refl|]. by intros aka ?%elem_of_nil.
  - destruct (aka_step ecols cn sc st a) as [st1|] eqn:Ha; [|done].
    destruct (IH _ _ H) as [Hsum Hakas].
    apply aka_step_Ok in Ha as [[Hnot ->]|[Hin ->]].
    + split; [done|]. intros aka [->|Haka]%elem_of_cons Hd; [done|]. by apply Hakas.
    + split.
      * eapply column_summary_trans; [|done]. split; simpl; [set_solver..|].
        intros k v Hk Hnot. rewrite lookup_insert_ne; [done|]. by intros ->.
      * intros aka Haka Hd. destruct (decide (aka = a)) as [->|Hne].
        -- split_and!.
           ++ apply (cs_keep _ _ Hsum); simpl; [by rewrite lookup_insert_eq|set_solver].
           ++ intros Hin'. apply (cs_delete _ _ Hsum) in Hin'. set_solver.
           ++ intros Hin'. apply (cs_new _ _ Hsum) in Hin'. set_solver.
        -- apply elem_of_cons in Haka as [?|Haka]; [done|].
           apply Hakas; [done|]. simpl. set_solver.
Qed.

Lemma aka_steps_resolved cn sc akas st st' :
  ColumnMetadata.name sc = cn →
  column_renames_resolved st →
  for_each (aka_step ecols cn sc) akas st = Ok st' →
  column_renames_resolved st' ∧
  ∀ k v, cc_rename_cols st' !! k = Some v →
    cc_rename_cols st !! k = Some v ∨ v = ColumnMetadata.name sc.
Proof.
  intros Hsc. revert st. induction akas as [|a akas IH]; intros st Hres H; simpl in H.
  - simplify_eq. split; [done|]. by left.
  - destruct (aka_step ecols cn sc st a) as [st1|] eqn:Ha; [|done].
    apply aka_step_Ok in Ha as [[Hnot ->]|[Hin ->]]; [by apply IH|].
    apply IH in H as [Hres' Hnew].
    + split; [done|]. intros k v [Hk| ->]%Hnew; [|by right].
      simpl in Hk. rewrite lookup_insert in Hk. case_decide; simplify_eq; auto.
    + intros k v. simpl. rewrite lookup_insert. case_decide.
      * intros; simplify_eq. set_solver.
      * intros [??]%Hres. set_solver.
Qed.

Lemma rename_step_Ok st cn st' :
  rename_step dcols dfields ecols st cn = Ok st' →
  ∃ sc field,
    dcols !! cn = Some sc ∧ dfields !! cn = Some field ∧ ColumnMetadata.name sc = cn ∧
    match Field.akas field with
    | Some akas => for_each (aka_step ecols cn sc) akas st = Ok st'
    | None => st' = st
    end.
Proof.
  unfold rename_step.
  intros (sc & Hsc%getitem_Ok & (field & Hfield%getitem_Ok & H)%bind_Ok)%bind_Ok.
  exists sc, field. split_and!; try done.
  - by apply dict_by_lookup_Some in Hsc as [? _].
  - destruct (Field.akas field); [done|]. by simplify_eq.
Qed.

Lemma rename_loop_summary l : ∀ st st',
  rename_loop ntn existing_columns defined_fields l st = Ok st' →
  column_summary st st'.
Proof.
  unfold rename_loop.
  induction l as [|cn l IH]; intros st st' H; simpl in H.
  - simplify_eq. apply column_summary_refl.
  - destruct (rename_step _ _ _ st cn) as [st1|] eqn:Hcn; [|done].
    apply (column_summary_trans _ st1); [|by apply IH].
    apply rename_step_Ok in Hcn as (sc & field & _ & _ & _ & Hakas).
    destruct (Field.akas field); [|subst; apply column_summary_refl].
    by apply aka_steps_summary in Hakas as [? _].
Qed.

Lemma rename_loop_resolved l st st' :
  column_renames_resolved st →
  rename_loop ntn existing_columns defined_fields l st = Ok st' →
  column_renames_resolved st'.
Proof.
  apply (for_each_invariant column_renames_resolved). clear st st'.
  intros st cn st' _ Hres (sc & field & _ & _ & Hname & Hakas)%rename_step_Ok.
  destruct (Field.akas field); [|by subst].
  by apply (aka_steps_resolved cn sc _ _ _ Hname Hres) in Hakas as [? _].
Qed.

End column_rename_loop.

(** ** The column-level diff *)

Lemma calc_column_changes_unfold
    migrator ntn etn existing_columns defined_fields existing_fks :
  calc_column_changes migrator ntn etn existing_columns defined_fields existing_fks
  = let* st :=
      rename_loop ntn existing_columns defined_fields
        (elements (cc_new_cols (column_changes_init ntn existing_columns defined_fields)))
        (column_changes_init ntn existing_columns defined_fields) in
    let* a1 :=
      metadata_loop migrator ntn existing_columns defined_fields (cc_rename_cols st)
        (elements (not_new_columns ntn defined_fields (cc_new_cols st))) [] in
    let* a2 :=
      fk_loop ntn defined_fields existing_fks (cc_rename_cols st)
        (elements (not_new_columns ntn defined_fields (cc_new_cols st))) a1 in
    Ok (cc_new_cols st, cc_delete_cols st, cc_rename_cols st, a2).
Proof. reflexivity. Qed.

Lemma calc_column_changes_Ok migrator ntn etn existing_columns defined_fields existing_fks
    new_cols delete_cols rename_cols alter_statements :
  calc_column_changes migrator ntn etn existing_columns defined_fields existing_fks
    = Ok (new_cols, delete_cols, rename_cols, alter_statements) →
  ∃ st a1,
    rename_loop ntn existing_columns defined_fields
      (elements (cc_new_cols (column_changes_init ntn existing_columns defined_fields)))
      (column_changes_init ntn existing_columns defined_fields) = Ok st ∧
    new_cols = cc_new_cols st ∧ delete_cols = cc_delete_cols st ∧
    rename_cols = cc_rename_cols st ∧
    metadata_loop migrator ntn existing_columns defined_fields rename_cols
      (elements (not_new_columns ntn defined_fields new_cols)) [] = Ok a1 ∧
    fk_loop ntn defined_fields existing_fks rename_cols
      (elements (not_new_columns ntn defined_fields new_cols)) a1 = Ok alter_statements.
Proof.
  unfold calc_column_changes.
  intros (st & Hst & (a1 & Ha1 & (a2 & Ha2 & Heq)%bind_Ok)%bind_Ok)%bind_Ok.
  exists st, a1. by simplify_eq.
Qed.

(** C10 -- column aliases.  Let the rename loop of [calc_column_changes]
    reach the new column [cn] in state [st].  Every alias of the field of
    [cn] that is in the delete set of [st] ends as a rename entry to [cn]
    and outside the delete set, [cn] leaving the new set: the loop over the
    aliases does not stop at its first match.  [can_convert] holds of every
    pair of types, so no candidate is rejected for its type. *)
Theorem calc_column_changes_every_alias
    migrator ntn etn existing_columns defined_fields existing_fks
    new_cols delete_cols rename_cols alter_statements pre cn post :
  calc_column_changes migrator ntn etn existing_columns defined_fields existing_fks
    = Ok (new_cols, delete_cols, rename_cols, alter_statements) →
  elements (cc_new_cols (column_changes_init ntn existing_columns defined_fields))
    = pre ++ cn :: post →
  (∃ st field,
     rename_loop ntn existing_columns defined_fields pre
       (column_changes_init ntn existing_columns defined_fields) = Ok st ∧
     defined_fields_by_column_name defined_fields !! cn = Some field ∧
     ∀ akas aka,
       Field.akas field = Some akas → aka ∈ akas → aka ∈ cc_delete_cols st →
       rename_cols !! aka = Some cn ∧ (aka ∉ delete_cols) ∧ (cn ∉ new_cols)) ∧
  (∀ type1 type2, can_convert type1 type2 = true).
Proof.
  intros (stf & a1 & Hloop & -> & -> & -> & _)%calc_column_changes_Ok Hsplit.
  split; [|done].
  unfold rename_loop in Hloop. rewrite Hsplit, for_each_app in Hloop.
  apply bind_Ok in Hloop as (st & Hpre & Hloop). simpl in Hloop.
  destruct (rename_step _ _ _ st cn) as [st1|] eqn:Hcn; [|done].
  apply rename_step_Ok in Hcn as (sc & field & _ & Hfield & Hname & Hakas).
  apply rename_loop_summary in Hloop as [Hnew Hdel Hkeep].
  exists st, field. split_and!; [done..|].
  intros akas aka Heq Hin Hd. rewrite Heq in Hakas.
  apply aka_steps_summary in Hakas as [_ Hakas].
  destruct (Hakas aka Hin Hd) as (Hren & Hnd & Hnn). rewrite Hname in Hren.
  split_and!.
  - by apply Hkeep.
  - set_solver.
  - set_solver.
Qed.

(** C9 -- rename resolution.  In the results of [calc_table_changes] and of
    [calc_column_changes] no name is both added and deleted, and every
    rename entry has its target outside the add-set and its source outside
    the delete-set. *)
Theorem renames_leave_both_sets
    all_models existing_tables adds deletes renames
    migrator ntn etn existing_columns defined_fields existing_fks
    new_cols delete_cols rename_cols alter_statements :
  calc_table_changes all_models existing_tables = Ok (adds, deletes, renames) →
  calc_column_changes migrator ntn etn existing_columns defined_fields existing_fks
    = Ok (new_cols, delete_cols, rename_cols, alter_statements) →
  ((∀ n, n ∈ adds → n ∉ deletes) ∧
   (∀ a t, renames !! a = Some t → (t ∉ adds) ∧ (a ∉ deletes))) ∧
  ((∀ n, n ∈ new_cols → n ∉ delete_cols) ∧
   (∀ k v, rename_cols !! k = Some v → (v ∉ new_cols) ∧ (k ∉ delete_cols))).
Proof.
  intros (st & Hloop & Hsort & -> & ->)%calc_table_changes_Ok
         (cst & a1 & Hcloop & -> & -> & -> & _)%calc_column_changes_Ok.
  split.
  - apply sort_by_fk_deps_sound in Hsort as (_ & Hmem & _).
    pose proof (table_loop_summary _ _ _ _ Hloop) as [Hadds Hdels _ _ _].
    apply table_loop_resolved in Hloop; [|by intros a t; simpl; rewrite lookup_empty].
    simpl in Hadds, Hdels. split.
    + intros n [Hn _]%Hmem Hd. set_solver.
    + intros a t [Ht Ha]%Hloop. split; [|done]. by intros [? _]%Hmem.
  - pose proof (rename_loop_summary _ _ _ _ _ _ Hcloop) as [Hnew Hdel _].
    apply rename_loop_resolved in Hcloop; [|by intros k v; simpl; rewrite lookup_empty].
    simpl in Hnew, Hdel. split; [|done].
    intros n Hn Hd. set_solver.
Qed.

(** ** The alter loops of the column-level diff *)

Section alter_loop_facts.

Variable migrator : Migrator.
Variable ntn : string.
Variables dcols ecols : gmap string ColumnMetadata.t.
Variable dfields : gmap string Field.t.
Variable inv : gmap string string.
Variable efks : gmap string ForeignKeyMetadata.t.

Lemma ltb_length_snoc {A} (l : list A) (x : A) : (length l <? length (l ++ [x])) = true.
Proof. apply Nat.ltb_lt. rewrite length_app. simpl. lia. Qed.

(** What an iteration appends does not depend on what the list holds. *)
Lemma metadata_step_app acc col_name :
  metadata_step migrator ntn dcols ecols inv acc col_name
  = bind (metadata_step migrator ntn dcols ecols inv [] col_name) (λ e, Ok (acc ++ e)).
Proof.
  unfold metadata_step.
  destruct (getitem ecols _) as [ec|]; [|done]. simpl.
  destruct (getitem dcols _) as [dc|]; [|done]. simpl.
  destruct (column_def_changed ec dc); [|simpl; by rewrite app_nil_r].
  destruct (ColumnMetadata.null ec), (ColumnMetadata.null dc); simpl;
    rewrite ?ltb_length_snoc, ?Nat.ltb_irrefl; done.
Qed.

Lemma fk_step_app acc col_name :
  fk_step ntn dfields inv efks acc col_name
  = bind (fk_step ntn dfields inv efks [] col_name) (λ e, Ok (acc ++ e)).
Proof.
  unfold fk_step.
  destruct (getitem dfields _) as [field|]; [|done]. simpl.
  destruct (efks !! _) as [fk|]; destruct (is_ForeignKeyField field); simpl;
    by rewrite ?app_nil_r.
Qed.

Lemma appending_loop_app (body : list statement → string → result (list statement)) :
  (∀ acc x, body acc x = bind (body [] x) (λ e, Ok (acc ++ e))) →
  ∀ l acc, for_each body l acc = bind (for_each body l []) (λ e, Ok (acc ++ e)).
Proof.
  intros Hbody. induction l as [|x l IH]; intros acc; simpl.
  - by rewrite app_nil_r.
  - rewrite (Hbody acc x). destruct (body [] x) as [e|]; [|done]. simpl.
    rewrite (IH (acc ++ e)), (IH e).
    destruct (for_each body l []) as [e'|]; [|done]. simpl. by rewrite app_assoc.
Qed.

(** The loop over [pre ++ x :: post] appends what it appends for [pre],
    then for [x], then for [post]. *)
Lemma appending_loop_split (body : list statement → string → result (list statement))
    pre x post acc r :
  (∀ acc x, body acc x = bind (body [] x) (λ e, Ok (acc ++ e))) →
  for_each body (pre ++ x :: post) acc = Ok r →
  ∃ before e after,
    for_each body pre [] = Ok before ∧ body [] x = Ok e ∧
    for_each body post [] = Ok after ∧ r = acc ++ before ++ e ++ after.
Proof.
  intros Hbody. rewrite for_each_app. intros (r1 & Hpre & H)%bind_Ok. simpl in H.
  destruct (body r1 x) as [r2|] eqn:Hx; [|done].
  rewrite (appending_loop_app body Hbody) in Hpre, H.
  rewrite Hbody in Hx.
  apply bind_Ok in Hpre as (before & Hpre & ?).
  apply bind_Ok in Hx as (e & Hx & ?).
  apply bind_Ok in H as (after & Hpost & ?). simplify_eq.
  exists before, e, after. split_and!; try done. by rewrite <-!app_assoc.
Qed.

Lemma metadata_step_unsupported acc col_name existing_col defined_col :
  ecols !! default col_name (inv !! col_name) = Some existing_col →
  dcols !! col_name = Some defined_col →
  column_def_changed existing_col defined_col = true →
  ColumnMetadata.null existing_col = ColumnMetadata.null defined_col →
  metadata_step migrator ntn dcols ecols inv acc col_name
  = Raise (Exception "i don't know how to change %s into %s"
             [ArgColumn existing_col; ArgColumn defined_col]).
Proof.
  intros He Hd Hch Hnull. unfold metadata_step, getitem. rewrite He, Hd. simpl.
  rewrite Hch, Hnull.
  destruct (ColumnMetadata.null defined_col); simpl; by rewrite Nat.ltb_irrefl.
Qed.

Lemma metadata_step_nullability col_name existing_col defined_col :
  ecols !! default col_name (inv !! col_name) = Some existing_col →
  dcols !! col_name = Some defined_col →
  ColumnMetadata.null existing_col ≠ ColumnMetadata.null defined_col →
  metadata_step migrator ntn dcols ecols inv [] col_name
  = Ok [parse_node
          ((if ColumnMetadata.null existing_col then add_not_null else drop_not_null)
             migrator ntn (ColumnMetadata.name defined_col))].
Proof.
  intros He Hd Hnull. unfold metadata_step, getitem. rewrite He, Hd. simpl.
  unfold column_def_changed.
  destruct (ColumnMetadata.null existing_col), (ColumnMetadata.null defined_col);
    try done; by rewrite bool_decide_eq_false_2.
Qed.

Lemma fk_step_emits col_name defined_field :
  dfields !! col_name = Some defined_field →
  fk_step ntn dfields inv efks [] col_name
  = Ok (match efks !! default col_name (inv !! col_name) with
        | None =>
            if is_ForeignKeyField defined_field then
              [parse_node (_create_foreign_key (Field.model_class defined_field) defined_field)]
            else []
        | Some existing_fk =>
            if is_ForeignKeyField defined_field then []
            else [parse_node (Clause [SQL "ALTER TABLE"; Entity ntn; SQL "DROP CONSTRAINT";
                                      Entity (ForeignKeyMetadata.name existing_fk)])]
        end).
Proof.
  intros Hf. unfold fk_step, getitem. rewrite Hf. simpl.
  destruct (efks !! _); by destruct (is_ForeignKeyField defined_field).
Qed.

End alter_loop_facts.

(** C5 -- foreign keys of a surviving column.  Let the foreign-key loop of
    [calc_column_changes] visit the columns [pre], then [col_name], then
    [post].  The statements returned are those of the metadata loop, those
    the foreign-key loop emits for [pre], those for [col_name], those for
    [post].  For [col_name] it is exactly one foreign-key add when the
    declared field is a foreign key and the existing column -- looked up
    under its name before the rename -- has no constraint, and exactly one
    DROP CONSTRAINT naming the existing constraint when the declared field
    is no foreign key and the existing column has one. *)
Theorem calc_column_changes_foreign_key
    migrator ntn etn existing_columns defined_fields existing_fks
    new_cols delete_cols rename_cols alter_statements
    pre col_name post defined_field :
  calc_column_changes migrator ntn etn existing_columns defined_fields existing_fks
    = Ok (new_cols, delete_cols, rename_cols, alter_statements) →
  elements (not_new_columns ntn defined_fields new_cols) = pre ++ col_name :: post →
  defined_fields_by_column_name defined_fields !! col_name = Some defined_field →
  let existing_column_name := default col_name (invert_renames rename_cols !! col_name) in
  let existing_fk := existing_fks_by_column existing_fks !! existing_column_name in
  ∃ metadata before after,
    metadata_loop migrator ntn existing_columns defined_fields rename_cols
      (pre ++ col_name :: post) [] = Ok metadata ∧
    fk_loop ntn defined_fields existing_fks rename_cols pre [] = Ok before ∧
    fk_loop ntn defined_fields existing_fks rename_cols post [] = Ok after ∧
    (is_ForeignKeyField defined_field = true → existing_fk = None →
     alter_statements
     = metadata ++ before
       ++ [parse_node (_create_foreign_key (Field.model_class defined_field) defined_field)]
       ++ after) ∧
    (is_ForeignKeyField defined_field = false → ∀ fk, existing_fk = Some fk →
     alter_statements
     = metadata ++ before
       ++ [parse_node (Clause [SQL "ALTER TABLE"; Entity ntn; SQL "DROP CONSTRAINT";
                               Entity (ForeignKeyMetadata.name fk)])]
       ++ after).
Proof.
  intros (st & a1 & _ & _ & _ & _ & Hmeta & Hfk)%calc_column_changes_Ok Hsplit Hfield.
  intros existing_column_name existing_fk.
  rewrite Hsplit in Hmeta, Hfk. unfold fk_loop in Hfk.
  apply appending_loop_split in Hfk as (before & e & after & Hpre & He & Hpost & ->);
    [|apply fk_step_app].
  rewrite (fk_step_emits _ _ _ _ _ _ Hfield) in He.
  exists a1, before, after. split_and!; try done.
  - intros Hfkf Hnone. fold existing_column_name existing_fk in He.
    rewrite Hnone, Hfkf in He. by simplify_eq.
  - intros Hfkf fk Hsome. fold existing_column_name existing_fk in He.
    rewrite Hsome, Hfkf in He. by simplify_eq.
Qed.

(** C6 -- nullability alters.  Let the two alter loops of
    [calc_column_changes] visit the columns [pre], then [col_name], then
    [post], the existing and the declared definition of [col_name] having
    the same canonical type and primary-key flag.  The statements returned
    are those the metadata loop emits for [pre], those for [col_name],
    those for [post], then those of the foreign-key loop.  For [col_name]
    the metadata loop emits exactly one add-NOT-NULL when the column goes
    from nullable to not null, exactly one drop-NOT-NULL when it goes from
    not null to nullable; and the foreign-key loop emits nothing for it
    when the column is a foreign key on both sides or on neither. *)
Theorem calc_column_changes_nullability
    migrator ntn etn existing_columns defined_fields existing_fks
    new_cols delete_cols rename_cols alter_statements
    pre col_name post existing_col defined_col defined_field :
  calc_column_changes migrator ntn etn existing_columns defined_fields existing_fks
    = Ok (new_cols, delete_cols, rename_cols, alter_statements) →
  elements (not_new_columns ntn defined_fields new_cols) = pre ++ col_name :: post →
  let existing_column_name := default col_name (invert_renames rename_cols !! col_name) in
  existing_cols_by_name existing_columns !! existing_column_name = Some existing_col →
  defined_cols_by_name ntn defined_fields !! col_name = Some defined_col →
  defined_fields_by_column_name defined_fields !! col_name = Some defined_field →
  ColumnMetadata.data_type existing_col = ColumnMetadata.data_type defined_col →
  ColumnMetadata.primary_key existing_col = ColumnMetadata.primary_key defined_col →
  ∃ before after fks fk_before fk_after,
    metadata_loop migrator ntn existing_columns defined_fields rename_cols pre []
      = Ok before ∧
    metadata_loop migrator ntn existing_columns defined_fields rename_cols post []
      = Ok after ∧
    fk_loop ntn defined_fields existing_fks rename_cols (pre ++ col_name :: post) []
      = Ok fks ∧
    fk_loop ntn defined_fields existing_fks rename_cols pre [] = Ok fk_before ∧
    fk_loop ntn defined_fields existing_fks rename_cols post [] = Ok fk_after ∧
    (is_ForeignKeyField defined_field
       = bool_decide (is_Some (existing_fks_by_column existing_fks !! existing_column_name)) →
     fks = fk_before ++ fk_after) ∧
    (ColumnMetadata.null existing_col = true → ColumnMetadata.null defined_col = false →
     alter_statements
     = before ++ [parse_node (add_not_null migrator ntn col_name)] ++ after ++ fks) ∧
    (ColumnMetadata.null existing_col = false → ColumnMetadata.null defined_col = true →
     alter_statements
     = before ++ [parse_node (drop_not_null migrator ntn col_name)] ++ after ++ fks).
Proof.
  intros (st & a1 & _ & _ & _ & _ & Hmeta & Hfk)%calc_column_changes_Ok Hsplit.
  intros existing_column_name He Hd Hf _ _.
  rewrite Hsplit in Hmeta, Hfk. unfold metadata_loop in Hmeta.
  apply appending_loop_split in Hmeta as (before & e & after & Hpre & Hstep & Hpost & ->);
    [|apply metadata_step_app].
  unfold fk_loop in Hfk.
  rewrite (appending_loop_app _ (fk_step_app _ _ _ _)) in Hfk.
  apply bind_Ok in Hfk as (fks & Hfks & Heq). simplify_eq.
  pose proof Hfks as Hfks'.
  apply appending_loop_split in Hfks' as (fk_before & fe & fk_after & Hfpre & Hfe & Hfpost & ->);
    [|apply fk_step_app].
  rewrite (fk_step_emits _ _ _ _ _ _ Hf) in Hfe.
  assert (ColumnMetadata.name defined_col = col_name) as Hname.
  { by apply dict_by_lookup_Some in Hd as [? _]. }
  exists before, after, (fk_before ++ fe ++ fk_after), fk_before, fk_after.
  split_and!; try done.
  - intros Hsame. fold existing_column_name in Hfe.
    destruct (existing_fks_by_column existing_fks !! existing_column_name) as [fk|].
    + rewrite bool_decide_eq_true_2 in Hsame by eauto. rewrite Hsame in Hfe.
      by simplify_eq.
    + rewrite bool_decide_eq_false_2 in Hsame by (by intros [??]). rewrite Hsame in Hfe.
      by simplify_eq.
  - intros H1 H2.
    rewrite (metadata_step_nullability _ _ _ _ _ _ _ _ He Hd) in Hstep by congruence.
    rewrite H1, Hname in Hstep. simplify_eq. simpl. by rewrite <-!app_assoc.
  - intros H1 H2.
    rewrite (metadata_step_nullability _ _ _ _ _ _ _ _ He Hd) in Hstep by congruence.
    rewrite H1, Hname in Hstep. simplify_eq. simpl. by rewrite <-!app_assoc.
Qed.

(** ** The plan *)

Lemma drop_loop migrator ntn l : ∀ to_run,
  foldl (drop_step migrator ntn) to_run l
  = to_run ++ ((λ column_name, parse_node (drop_column migrator ntn column_name false)) <$> l).
Proof.
  induction l as [|x l IH]; intros to_run; simpl.
  - by rewrite app_nil_r.
  - rewrite IH. unfold drop_step. by rewrite <-app_assoc.
Qed.

Lemma rename_column_loop migrator ntn l : ∀ to_run,
  foldl (rename_column_step migrator ntn) to_run l
  = to_run ++ ((λ item : string * string,
                  parse_node (rename_column migrator ntn item.1 item.2)) <$> l).
Proof.
  induction l as [|[o n] l IH]; intros to_run; simpl.
  - by rewrite app_nil_r.
  - rewrite IH. by rewrite <-app_assoc.
Qed.

Lemma rename_table_loop iter_ops migrator l : ∀ to_run,
  foldl (rename_table_step iter_ops migrator) to_run l
  = to_run ++
    mjoin ((λ item : string * string,
              parse_node <$> (match iter_ops (rename_table migrator item.1 item.2) with
                              | None => [rename_table migrator item.1 item.2]
                              | Some l => l
                              end)) <$> l).
Proof.
  induction l as [|[k v] l IH]; intros to_run; simpl.
  - by rewrite app_nil_r.
  - rewrite IH. by rewrite <-app_assoc.
Qed.

Lemma list_comp_Ok {A B} (f : A → result B) (g : A → option B) l r :
  (∀ x y, f x = Ok y → g x = Some y) →
  list_comp f l = Ok r → Forall2 (λ x y, g x = Some y) l r.
Proof.
  intros Hfg. revert r. induction l as [|x l IH]; intros r H; simpl in H.
  - simplify_eq. constructor.
  - apply bind_Ok in H as (y & Hy & (ys & Hys & H)%bind_Ok). simplify_eq.
    constructor; auto.
Qed.

Section plan_facts.

Variable all_models : list Model.t.
Variable iter_ops : operation → option (list operation).

Lemma add_step_Ok migrator ntn dfields to_run column_name r :
  add_step migrator ntn dfields to_run column_name = Ok r →
  ∃ field, dfields !! column_name = Some field ∧
           r = to_run ++ add_column_statements migrator ntn column_name field.
Proof.
  unfold add_step. intros (field & Hfield%getitem_Ok & H)%bind_Ok.
  exists field. split; [done|]. unfold add_column_statements.
  destruct (Field.null field), (truthy (Field.default field)); simpl in H; simplify_eq;
    by rewrite <-?app_assoc.
Qed.

Lemma add_loop_Ok migrator ntn defined_fields l : ∀ to_run r,
  for_each (add_step migrator ntn (dict_by Field.db_column defined_fields)) l to_run = Ok r →
  r = to_run ++
      mjoin ((λ column_name,
                match defined_fields_by_column_name defined_fields !! column_name with
                | Some field => add_column_statements migrator ntn column_name field
                | None => []
                end) <$> l).
Proof.
  induction l as [|cn l IH]; intros to_run r H; simpl in H.
  - simplify_eq. simpl. by rewrite app_nil_r.
  - destruct (add_step _ _ _ to_run cn) as [r1|] eqn:Hcn; [|done].
    apply add_step_Ok in Hcn as (field & Hfield & ->).
    apply IH in H as ->. simpl. unfold defined_fields_by_column_name at 2.
    by rewrite Hfield, <-app_assoc.
Qed.

Lemma columns_step_Ok db migrator table_deletes table_renames to_run rcbt item to_run' rcbt' :
  columns_step all_models migrator (get_foreign_keys_by_table db "public")
    table_deletes table_renames (to_run, rcbt) item = Ok (to_run', rcbt') →
  ∃ block,
    table_block all_models db migrator table_deletes table_renames item block ∧
    to_run' = to_run ++ block.
Proof.
  destruct item as [etn ecols]. unfold columns_step, table_block. simpl.
  destruct (decide (etn ∈ table_deletes)) as [Hd|Hd].
  - intros; simplify_eq. exists []. by rewrite app_nil_r.
  - intros (cls & Hcls%getitem_Ok & ([[[adds deletes] renames] alters] & Hcols & H)%bind_Ok)%bind_Ok.
    apply bind_Ok in H as (r1 & Hadd%add_loop_Ok & H). simplify_eq.
    eexists. split.
    + exists cls, adds, deletes, renames, alters. split_and!; [done..|reflexivity].
    + unfold table_statements.
      by rewrite rename_column_loop, drop_loop, <-!app_assoc.
Qed.

Lemma columns_loop_Ok db migrator table_deletes table_renames items : ∀ to_run rcbt to_run' rcbt',
  for_each (columns_step all_models migrator (get_foreign_keys_by_table db "public")
              table_deletes table_renames) items (to_run, rcbt) = Ok (to_run', rcbt') →
  ∃ blocks,
    Forall2 (table_block all_models db migrator table_deletes table_renames) items blocks ∧
    to_run' = to_run ++ mjoin blocks.
Proof.
  induction items as [|item items IH]; intros to_run rcbt to_run' rcbt' H.
  - simpl in H. simplify_eq. exists []. split; [constructor|]. simpl. by rewrite app_nil_r.
  - rewrite for_each_cons in H. apply bind_Ok in H as ([r1 m1] & Hitem & H).
    apply columns_step_Ok in Hitem as (block & Hblock & ->).
    apply IH in H as (blocks & Hblocks & ->).
    exists (block :: blocks). split; [by constructor|]. simpl. by rewrite app_assoc.
Qed.

(** The order of the statements of a plan: the CREATE TABLEs in the order
    [calc_table_changes] gives, a table after those it foreign-keys into,
    the table renames, for each existing table
    that is not dropped its column adds, column drops, column renames and
    remaining alters, and the DROP TABLEs last. *)
Lemma calc_changes_plan db to_run :
  calc_changes all_models iter_ops db = Ok to_run →
  ∃ migrator table_adds table_deletes table_renames creates blocks,
    auto_detect_migrator db = Ok migrator ∧
    calc_table_changes all_models (Database.get_tables db)
      = Ok (table_adds, table_deletes, table_renames) ∧
    fk_ordered all_models table_adds ∧
    Forall2 (λ tbl stmt, ∃ cls, table_names_to_models all_models !! tbl = Some cls ∧
                                stmt = create_table cls) table_adds creates ∧
    Forall2 (table_block all_models db migrator table_deletes table_renames)
      (map_to_list (existing_columns_of db)) blocks ∧
    to_run = creates
             ++ rename_table_statements iter_ops migrator table_renames
             ++ mjoin blocks
             ++ ((λ tbl, parse_node (Clause [SQL "DROP TABLE"; Entity tbl]))
                   <$> elements table_deletes).
Proof.
  unfold calc_changes.
  intros (migrator & Hmig & ([[table_adds table_deletes] table_renames] & Htab & H)%bind_Ok)%bind_Ok.
  apply bind_Ok in H as (creates & Hcreates & H).
  apply bind_Ok in H as ([r rcbt] & Hloop & H). simplify_eq.
  apply columns_loop_Ok in Hloop as (blocks & Hblocks & ->).
  exists migrator, table_adds, table_deletes, table_renames, creates, blocks.
  split_and!; try done.
  - apply calc_table_changes_Ok in Htab as (st & _ & Hsort & _).
    by apply sort_by_fk_deps_sound in Hsort as (_ & _ & ?).
  - clear -Hcreates. revert creates Hcreates.
    induction table_adds as [|tbl l IH]; intros creates H; simpl in H.
    + simplify_eq. constructor.
    + apply bind_Ok in H as (y & (cls & Hcls%getitem_Ok & Hy)%bind_Ok & (ys & Hys & H)%bind_Ok).
      simplify_eq. constructor; eauto.
  - rewrite rename_table_loop.
    unfold rename_table_statements. simpl. by rewrite <-!app_assoc.
Qed.

End plan_facts.

Lemma consecutive_in_app_l l a b : consecutive_in l a → consecutive_in l (a ++ b).
Proof.
  intros (x & y & ->). exists x, (y ++ b). by rewrite <-!app_assoc.
Qed.

Lemma consecutive_in_app_r l a b : consecutive_in l b → consecutive_in l (a ++ b).
Proof.
  intros (x & y & ->). exists (a ++ x), y. by rewrite <-!app_assoc.
Qed.

Lemma consecutive_in_join l (ls : list (list statement)) block :
  block ∈ ls → consecutive_in l block → consecutive_in l (mjoin ls).
Proof.
  intros (l1 & l2 & ->)%list_elem_of_split Hin.
  rewrite join_app. apply consecutive_in_app_r. simpl.
  by apply consecutive_in_app_l.
Qed.

Lemma existing_columns_of_lookup db etn :
  etn ∈ Database.get_tables db →
  existing_columns_of db !! etn = Some (Database.get_columns db etn).
Proof.
  unfold existing_columns_of.
  induction (Database.get_tables db) as [|t l IH] using rev_ind; [by intros ?%elem_of_nil|].
  rewrite foldl_snoc, lookup_insert. case_decide; [by simplify_eq|].
  rewrite elem_of_app, list_elem_of_singleton. intros [Hin| ->]; [by apply IH|done].
Qed.

(** ** The plan executor *)

Lemma rstrip_cons (c : ascii) (s : string) :
  is_space c = false → rstrip (String c s) = String c (rstrip s).
Proof. intros Hc. simpl. rewrite Hc. by destruct (rstrip s). Qed.

Lemma startswith_cons (a b : ascii) (p s : string) :
  startswith (String b s) (String a p) = Ascii.eqb a b && startswith s p.
Proof. done. Qed.

Lemma startswith_strip (sql : string) :
  startswith sql "--" = true → startswith (strip sql) "--" = true.
Proof.
  destruct sql as [|a [|b s]]; [done| |].
  - rewrite startswith_cons. intros [_ ?]%andb_true_iff. done.
  - rewrite !startswith_cons.
    intros [<-%Ascii.eqb_eq [<-%Ascii.eqb_eq _]%andb_true_iff]%andb_true_iff.
    unfold strip. change (lstrip (String "-" (String "-" s))) with (String "-" (String "-" s)).
    rewrite !rstrip_cons by reflexivity. reflexivity.
Qed.

Section executor_facts.

Variable schema : Type.
Variable execute_sql : schema → string → list pyval → schema * result unit.

Lemma execute_loop_app pre post c :
  execute_loop schema execute_sql (pre ++ post) c
  = match execute_loop schema execute_sql pre c with
    | (c', Ok _) => execute_loop schema execute_sql post c'
    | (c', Raise e) => (c', Raise e)
    end.
Proof.
  revert c. induction pre as [|[sql params] pre IH]; intros c; simpl; [done|].
  destruct (startswith (strip sql) "--"); [apply IH|].
  destruct (db_execute_sql schema execute_sql c sql params) as [c' [[]|e]]; [apply IH|done].
Qed.

Lemma execute_loop_snapshots to_run : ∀ c c' r,
  execute_loop schema execute_sql to_run c = (c', r) →
  snapshots schema c' = snapshots schema c.
Proof.
  induction to_run as [|[sql params] to_run IH]; intros c c' r H; simpl in H.
  - by simplify_eq.
  - destruct (startswith (strip sql) "--"); [by eapply IH|].
    unfold db_execute_sql in H.
    destruct (execute_sql (live schema c) sql params) as [s [[]|e]].
    + by apply IH in H.
    + by simplify_eq.
Qed.

Lemma execute_loop_skips pre sql params post c :
  startswith sql "--" = true →
  execute_loop schema execute_sql (pre ++ (sql, params) :: post) c
  = execute_loop schema execute_sql (pre ++ post) c.
Proof.
  intros Hsql%startswith_strip. rewrite !execute_loop_app. simpl. by rewrite Hsql.
Qed.

End executor_facts.

(** C7 -- the warning for a NOT NULL column without default.  When a plan
    adds the column [column_name], declared NOT NULL with no default, to
    the surviving table [etn], the plan holds, one after the other, the
    add-column statement, the warning and the add-not-null statement;
    [_execute] skips a statement whose text starts with the comment marker:
    running a plan with such a statement is running the plan without it;
    and so the warning, whatever the query compiler, is never executed. *)
Theorem not_null_warning_is_inert
    all_models iter_ops db to_run migrator table_adds table_deletes table_renames
    etn cls adds deletes renames alter_statements column_name field :
  calc_changes all_models iter_ops db = Ok to_run →
  auto_detect_migrator db = Ok migrator →
  calc_table_changes all_models (Database.get_tables db)
    = Ok (table_adds, table_deletes, table_renames) →
  etn ∈ Database.get_tables db →
  etn ∉ table_deletes →
  let ntn := default etn (table_renames !! etn) in
  table_names_to_models all_models !! ntn = Some cls →
  calc_column_changes migrator ntn etn (Database.get_columns db etn)
    (Model.sorted_fields cls) (get_foreign_keys_by_table db "public" !!! etn)
    = Ok (adds, deletes, renames, alter_statements) →
  column_name ∈ adds →
  defined_fields_by_column_name (Model.sorted_fields cls) !! column_name = Some field →
  Field.null field = false →
  Field.default field = PyNone →
  consecutive_in
    [parse_node (alter_add_column migrator ntn column_name field);
     not_null_warning;
     parse_node (add_not_null migrator ntn column_name)] to_run ∧
  (∀ schema execute_sql conn pre sql params post interactive,
     startswith sql "--" = true →
     _execute schema execute_sql conn (pre ++ (sql, params) :: post) interactive
     = _execute schema execute_sql conn (pre ++ post) interactive) ∧
  (∀ qc_parse_node qc_create_table schema execute_sql conn before after interactive,
     _execute schema execute_sql conn
       (compile qc_parse_node qc_create_table
          <$> before ++ not_null_warning :: after) interactive
     = _execute schema execute_sql conn
         (compile qc_parse_node qc_create_table <$> before ++ after) interactive).
Proof.
  intros Hplan Hmig Htab Hetn Hkeep ntn Hcls Hcols Hadd Hfield Hnull Hdefault.
  split_and!.
  - apply calc_changes_plan in Hplan
      as (migrator' & ta & td & tr & creates & blocks & Hmig' & Htab' & _ & _ & Hblocks & ->).
    rewrite Hmig in Hmig'. rewrite Htab in Htab'. simplify_eq.
    apply existing_columns_of_lookup, elem_of_map_to_list, list_elem_of_lookup in Hetn
      as [i Hi].
    destruct (Forall2_lookup_l _ _ _ _ _ Hblocks Hi) as (block & Hblock & Hshape).
    unfold table_block in Hshape. simpl in Hshape.
    rewrite decide_False in Hshape by done.
    destruct Hshape as (cls' & adds' & deletes' & renames' & alters' & Hcls' & Hcols' & ->).
    fold ntn in Hcls', Hcols'. rewrite Hcls in Hcls'. simplify_eq.
    rewrite Hcols in Hcols'. simplify_eq.
    apply consecutive_in_app_r, consecutive_in_app_r, consecutive_in_app_l.
    apply (consecutive_in_join _ _ _ (list_elem_of_lookup_2 _ _ _ Hblock)).
    unfold table_statements. apply consecutive_in_app_l.
    apply elem_of_elements, list_elem_of_split in Hadd as (l1 & l2 & ->).
    rewrite fmap_app, join_app. apply consecutive_in_app_r. simpl.
    apply consecutive_in_app_l. rewrite Hfield.
    unfold add_column_statements. rewrite Hnull, Hdefault. simpl.
    exists [], []. by rewrite app_nil_r.
  - intros schema execute_sql conn pre sql params post interactive Hsql.
    unfold _execute, atomic. by rewrite execute_loop_skips.
  - intros qc_parse_node qc_create_table schema execute_sql conn before after interactive.
    rewrite !fmap_app, fmap_cons. unfold _execute, atomic. simpl.
    by rewrite execute_loop_skips.
Qed.


(** ** What the diffs raise *)





Section column_totality.

Variable migrator : Migrator.
Variable ntn : string.
Variable existing_columns : list ColumnMetadata.t.
Variable defined_fields : list Field.t.
Variable existing_fks : list ForeignKeyMetadata.t.

Let ecols := existing_cols_by_name existing_columns.
Let dcols := defined_cols_by_name ntn defined_fields.
Let dfields := defined_fields_by_column_name defined_fields.
Let init := column_changes_init ntn existing_columns defined_fields.

Lemma defined_dom k : k ∈ dom dcols ↔ k ∈ dom dfields.
Proof.
  unfold dcols, dfields, defined_cols_by_name, defined_fields_by_column_name.
  rewrite !dict_by_dom, <-list_fmap_compose. done.
Qed.

Lemma column_invariant_init : column_invariant init init.
Proof.
  split; [done|done| |done].
  intros k v. unfold init; simpl. by rewrite lookup_empty.
Qed.

Lemma aka_step_invariant cn sc st aka st' :
  ColumnMetadata.name sc = cn →
  column_invariant init st →
  aka_step ecols cn sc st aka = Ok st' → column_invariant init st'.
Proof.
  intros Hname [Hn Hd Hs Ht] [[_ ->]|[Hin ->]]%aka_step_Ok; [done|].
  split; simpl.
  - set_solver.
  - set_solver.
  - intros k v. rewrite lookup_insert. case_decide.
    + intros _. subst. split; [by apply Hd|set_solver].
    + intros [??]%Hs. split; [done|set_solver].
  - intros cn' Hin0 Hnot. destruct (decide (cn' = cn)) as [->|Hne].
    + exists aka. by rewrite lookup_insert_eq, Hname.
    + destruct (Ht cn' Hin0) as [k Hk]; [set_solver|].
      exists k. rewrite lookup_insert_ne; [done|].
      intros <-. by destruct (Hs _ _ Hk).
Qed.

Lemma aka_step_total cn sc st aka :
  cc_delete_cols st ⊆ dom ecols → ∃ st', aka_step ecols cn sc st aka = Ok st'.
Proof.
  intros Hsub. unfold aka_step.
  destruct (decide (aka ∈ cc_delete_cols st)) as [Hin|Hin]; [|by eexists].
  apply Hsub, elem_of_dom in Hin as [ec Hec].
  unfold getitem. rewrite Hec. simpl. by eexists.
Qed.

Lemma init_delete_dom : cc_delete_cols init ⊆ dom ecols.
Proof. unfold init; simpl. set_solver. Qed.

Lemma rename_step_total st cn :
  column_invariant init st → cn ∈ dom dcols →
  ∃ st', rename_step dcols dfields ecols st cn = Ok st' ∧ column_invariant init st'.
Proof.
  intros Hinv Hcn. unfold rename_step, getitem.
  pose proof Hcn as [field Hfield]%defined_dom%elem_of_dom.
  apply elem_of_dom in Hcn as [sc Hsc]. rewrite Hsc, Hfield. simpl.
  assert (ColumnMetadata.name sc = cn) as Hname.
  { by apply dict_by_lookup_Some in Hsc as [? _]. }
  destruct (Field.akas field) as [akas|]; [|by eexists].
  clear Hfield. revert st Hinv. induction akas as [|a akas IH]; intros st Hinv.
  - by eexists.
  - destruct (aka_step_total cn sc st a) as [st1 Hst1].
    { etrans; [apply (ci_delete _ _ Hinv)|apply init_delete_dom]. }
    rewrite for_each_cons, Hst1. simpl. apply IH.
    by eapply aka_step_invariant.
Qed.

Lemma rename_loop_total l : ∀ st,
  column_invariant init st → (∀ cn, cn ∈ l → cn ∈ dom dcols) →
  ∃ st', rename_loop ntn existing_columns defined_fields l st = Ok st' ∧
         column_invariant init st'.
Proof.
  unfold rename_loop. induction l as [|cn l IH]; intros st Hinv Hl; [by eexists|].
  destruct (rename_step_total st cn Hinv) as (st1 & Hst1 & Hinv1).
  { apply Hl, list_elem_of_here. }
  rewrite for_each_cons. fold ecols dcols dfields. rewrite Hst1. simpl.
  apply IH; [done|]. intros cn' ?. by apply Hl, list_elem_of_further.
Qed.

(** The rename loop of [calc_column_changes] raises nothing. *)
Lemma calc_column_changes_renames :
  ∃ st,
    rename_loop ntn existing_columns defined_fields (elements (cc_new_cols init)) init
      = Ok st ∧
    column_invariant init st.
Proof.
  apply rename_loop_total; [apply column_invariant_init|].
  intros cn Hcn%elem_of_elements. unfold init in Hcn; simpl in Hcn. set_solver.
Qed.




End column_totality.


(** A surviving column whose type or primary-key flag changes, its
    nullability staying the same, makes [calc_column_changes] raise. *)
Lemma calc_column_changes_unsupported
    migrator ntn etn existing_columns defined_fields existing_fks
    st col_name existing_col defined_col :
  rename_loop ntn existing_columns defined_fields
    (elements (cc_new_cols (column_changes_init ntn existing_columns defined_fields)))
    (column_changes_init ntn existing_columns defined_fields) = Ok st →
  col_name ∈ not_new_columns ntn defined_fields (cc_new_cols st) →
  unsupported_change ntn existing_columns defined_fields (cc_rename_cols st)
    col_name existing_col defined_col →
  ∃ e, calc_column_changes migrator ntn etn existing_columns defined_fields existing_fks
       = Raise e.
Proof.
  intros Hst Hin (Hec & Hdc & Hch & Hnull).
  destruct (calc_column_changes migrator ntn etn existing_columns defined_fields existing_fks)
    as [[[[n d] r] a]|e] eqn:Hcalc; [exfalso|by eexists].
  apply calc_column_changes_Ok in Hcalc as (st' & a1 & Hst' & -> & -> & -> & Hmeta & _).
  rewrite Hst in Hst'. simplify_eq.
  apply elem_of_elements, list_elem_of_split in Hin as (pre & post & Hsplit).
  rewrite Hsplit in Hmeta. unfold metadata_loop in Hmeta.
  apply appending_loop_split in Hmeta as (? & ? & ? & _ & Hstep & _); [|apply metadata_step_app].
  by rewrite (metadata_step_unsupported _ _ _ _ _ _ _ _ _ Hec Hdc Hch Hnull) in Hstep.
Qed.

(** ** The properties on the worked examples *)

Ltac by_computation := apply (bool_decide_unpack _); vm_compute; exact I.

Lemma calc_table_changes_alias_rename_witness :
  calc_table_changes ex_models ["users"; "junk"]
    = Ok (["orders"], {["junk"]}, {["users" := "people"]}) ∧
  elements (tc_adds (table_changes_init ex_models ["users"; "junk"]))
    = ["orders"] ++ "people" :: [] ∧
  renamed_pair ["orders"] {["junk"]} {["users" := "people"]} "users" "people".
Proof.
  assert (H1 : calc_table_changes ex_models ["users"; "junk"]
               = Ok (["orders"], {["junk"]}, {["users" := "people"]}))
    by (vm_compute; reflexivity).
  assert (H2 : elements (tc_adds (table_changes_init ex_models ["users"; "junk"]))
               = ["orders"] ++ "people" :: [])
    by (vm_compute; reflexivity).
  split_and!; [exact H1|exact H2|].
  destruct (calc_table_changes_alias_rename _ _ _ _ _ _ _ _ H1 H2)
    as (st & Hst & _ & Hone & _).
  vm_compute in Hst. injection Hst as <-.
  apply Hone.
  - by_computation.
  - by_computation.
  - intros b Hb _. vm_compute in Hb. by apply list_elem_of_singleton in Hb.
Defined.

Lemma sort_by_fk_deps_topological_witness :
  sort_by_fk_deps ex_chain {["a"; "b"; "c"]} = Ok ["c"; "b"; "a"] ∧
  fk_ordered ex_chain ["c"; "b"; "a"] ∧
  tc (depends ex_cycle {["a"; "b"]}) "a" "a" ∧
  ∃ e, sort_by_fk_deps ex_cycle {["a"; "b"]} = Raise e.
Proof.
  destruct (sort_by_fk_deps_topological ex_chain {["a"; "b"; "c"]}) as [Hok _].
  destruct (sort_by_fk_deps_topological ex_cycle {["a"; "b"]}) as [_ [Hcycle _]].
  assert (H1 : sort_by_fk_deps ex_chain {["a"; "b"; "c"]} = Ok ["c"; "b"; "a"])
    by (vm_compute; reflexivity).
  assert (H2 : tc (depends ex_cycle {["a"; "b"]}) "a" "a").
  { apply tc_l with "b"; [|apply tc_once]; unfold depends; split_and!; by_computation. }
  split_and!; [exact H1|apply (Hok _ H1)|exact H2|].
  apply Hcycle. by exists "a".
Defined.

Lemma renames_leave_both_sets_witness :
  calc_table_changes ex_models ["users"; "junk"]
    = Ok (["orders"], {["junk"]}, {["users" := "people"]}) ∧
  calc_column_changes PostgresqlMigrator "t" "t"
    ex_existing_columns ex_defined_fields ex_existing_fks
    = Ok ({["extra"]}, {["legacy"]}, ex_rename_cols, ex_alter_statements) ∧
  ("people" ∉ ["orders"]) ∧ ("users" ∉ ({["junk"]} : gset string)) ∧
  ("email" ∉ ({["extra"]} : gset string)) ∧ ("mail2" ∉ ({["legacy"]} : gset string)).
Proof.
  assert (H1 : calc_table_changes ex_models ["users"; "junk"]
               = Ok (["orders"], {["junk"]}, {["users" := "people"]}))
    by (vm_compute; reflexivity).
  assert (H2 : calc_column_changes PostgresqlMigrator "t" "t"
                 ex_existing_columns ex_defined_fields ex_existing_fks
               = Ok ({["extra"]}, {["legacy"]}, ex_rename_cols, ex_alter_statements))
    by (vm_compute; reflexivity).
  destruct (renames_leave_both_sets _ _ _ _ _ _ _ _ _ _ _ _ _ _ _ H1 H2)
    as [[_ Htab] [_ Hcol]].
  destruct (Htab "users" "people") as [? ?]; [by vm_compute|].
  destruct (Hcol "mail2" "email") as [? ?]; [by vm_compute|].
  by split_and!.
Defined.

Lemma calc_column_changes_every_alias_witness :
  calc_column_changes PostgresqlMigrator "t" "t"
    ex_existing_columns ex_defined_fields ex_existing_fks
    = Ok ({["extra"]}, {["legacy"]}, ex_rename_cols, ex_alter_statements) ∧
  elements (cc_new_cols (column_changes_init "t" ex_existing_columns ex_defined_fields))
    = ["owner"] ++ "email" :: ["extra"] ∧
  ex_rename_cols !! "mail1" = Some "email" ∧
  ex_rename_cols !! "mail2" = Some "email".
Proof.
  assert (H1 : calc_column_changes PostgresqlMigrator "t" "t"
                 ex_existing_columns ex_defined_fields ex_existing_fks
               = Ok ({["extra"]}, {["legacy"]}, ex_rename_cols, ex_alter_statements))
    by (vm_compute; reflexivity).
  assert (H2 : elements (cc_new_cols
                           (column_changes_init "t" ex_existing_columns ex_defined_fields))
               = ["owner"] ++ "email" :: ["extra"])
    by (vm_compute; reflexivity).
  destruct (calc_column_changes_every_alias _ _ _ _ _ _ _ _ _ _ _ _ _ H1 H2)
    as [(st & field & Hst & Hfield & Hall) _].
  vm_compute in Hst. injection Hst as <-.
  vm_compute in Hfield. injection Hfield as <-.
  split_and!; [exact H1|exact H2| |].
  - apply (Hall ["mail1"; "mail2"] "mail1" eq_refl); by_computation.
  - apply (Hall ["mail1"; "mail2"] "mail2" eq_refl); by_computation.
Defined.

Lemma calc_column_changes_foreign_key_witness :
  calc_column_changes PostgresqlMigrator "t" "t"
    ex_existing_columns ex_defined_fields ex_existing_fks
    = Ok ({["extra"]}, {["legacy"]}, ex_rename_cols, ex_alter_statements) ∧
  elements (not_new_columns "t" ex_defined_fields {["extra"]})
    = ["owner"; "m"; "email"; "id"; "n"] ++ "ref_id" :: [] ∧
  (∃ metadata before after,
     ex_alter_statements
     = metadata ++ before ++ [parse_node (_create_foreign_key "t" ex_ref)] ++ after) ∧
  (∃ metadata before after,
     ex_alter_statements
     = metadata ++ before
       ++ [parse_node (Clause [SQL "ALTER TABLE"; Entity "t"; SQL "DROP CONSTRAINT";
                               Entity "t_owner_id_fkey"])]
       ++ after).
Proof.
  assert (H1 : calc_column_changes PostgresqlMigrator "t" "t"
                 ex_existing_columns ex_defined_fields ex_existing_fks
               = Ok ({["extra"]}, {["legacy"]}, ex_rename_cols, ex_alter_statements))
    by (vm_compute; reflexivity).
  assert (H2 : elements (not_new_columns "t" ex_defined_fields {["extra"]})
               = ["owner"; "m"; "email"; "id"; "n"] ++ "ref_id" :: [])
    by (vm_compute; reflexivity).
  assert (H2' : elements (not_new_columns "t" ex_defined_fields {["extra"]})
                = [] ++ "owner" :: ["m"; "email"; "id"; "n"; "ref_id"])
    by (vm_compute; reflexivity).
  assert (H3 : defined_fields_by_column_name ex_defined_fields !! "ref_id" = Some ex_ref)
    by (vm_compute; reflexivity).
  assert (H3' : defined_fields_by_column_name ex_defined_fields !! "owner" = Some ex_owner)
    by (vm_compute; reflexivity).
  split_and!; [exact H1|exact H2| |].
  - destruct (calc_column_changes_foreign_key _ _ _ _ _ _ _ _ _ _ _ _ _ _ H1 H2 H3)
      as (metadata & before & after & _ & _ & _ & Hadd & _).
    exists metadata, before, after. apply Hadd; vm_compute; reflexivity.
  - destruct (calc_column_changes_foreign_key _ _ _ _ _ _ _ _ _ _ _ _ _ _ H1 H2' H3')
      as (metadata & before & after & _ & _ & _ & _ & Hdrop).
    exists metadata, before, after.
    apply (Hdrop eq_refl ex_fk_owner). vm_compute; reflexivity.
Defined.

Lemma calc_column_changes_nullability_witness :
  calc_column_changes PostgresqlMigrator "t" "t"
    ex_existing_columns ex_defined_fields ex_existing_fks
    = Ok ({["extra"]}, {["legacy"]}, ex_rename_cols, ex_alter_statements) ∧
  (∃ before after fk_before fk_after,
     ex_alter_statements
     = before ++ [parse_node (add_not_null PostgresqlMigrator "t" "n")] ++ after
       ++ (fk_before ++ fk_after)) ∧
  (∃ before after fk_before fk_after,
     ex_alter_statements
     = before ++ [parse_node (drop_not_null PostgresqlMigrator "t" "m")] ++ after
       ++ (fk_before ++ fk_after)).
Proof.
  assert (H1 : calc_column_changes PostgresqlMigrator "t" "t"
                 ex_existing_columns ex_defined_fields ex_existing_fks
               = Ok ({["extra"]}, {["legacy"]}, ex_rename_cols, ex_alter_statements))
    by (vm_compute; reflexivity).
  assert (Hn : elements (not_new_columns "t" ex_defined_fields {["extra"]})
               = ["owner"; "m"; "email"; "id"] ++ "n" :: ["ref_id"])
    by (vm_compute; reflexivity).
  assert (Hm : elements (not_new_columns "t" ex_defined_fields {["extra"]})
               = ["owner"] ++ "m" :: ["email"; "id"; "n"; "ref_id"])
    by (vm_compute; reflexivity).
  split_and!; [exact H1| |].
  - destruct (calc_column_changes_nullability _ _ _ _ _ _ _ _ _ _ _ _ _
                (ColumnMetadata.mk "n" "integer" true false "t")
                (ColumnMetadata.mk "n" "integer" false false "t")
                (Field.mk "n" "integer" false false PyNone None None "t") H1 Hn)
      as (before & after & fks & fk_before & fk_after & _ & _ & _ & _ & _ & Hfk & Hadd & _);
      [vm_compute; reflexivity..|].
    exists before, after, fk_before, fk_after.
    rewrite <-Hfk by (vm_compute; reflexivity). by apply Hadd.
  - destruct (calc_column_changes_nullability _ _ _ _ _ _ _ _ _ _ _ _ _
                (ColumnMetadata.mk "m" "integer" false false "t")
                (ColumnMetadata.mk "m" "integer" true false "t")
                (Field.mk "m" "integer" true false PyNone None None "t") H1 Hm)
      as (before & after & fks & fk_before & fk_after & _ & _ & _ & _ & _ & Hfk & _ & Hdrop);
      [vm_compute; reflexivity..|].
    exists before, after, fk_before, fk_after.
    rewrite <-Hfk by (vm_compute; reflexivity). by apply Hdrop.
Defined.

Lemma not_null_warning_is_inert_witness :
  calc_changes ex_models ex_iter_ops ex_db = Ok ex_plan ∧
  consecutive_in
    [parse_node (alter_add_column PostgresqlMigrator "people" "nickname" ex_nickname);
     not_null_warning;
     parse_node (add_not_null PostgresqlMigrator "people" "nickname")] ex_plan.
Proof.
  assert (H1 : calc_changes ex_models ex_iter_ops ex_db = Ok ex_plan)
    by (vm_compute; reflexivity).
  split; [exact H1|].
  refine (proj1 (not_null_warning_is_inert ex_models ex_iter_ops ex_db ex_plan
                   PostgresqlMigrator ["orders"] {["junk"]} {["users" := "people"]}
                   "users" ex_people {["signup_ip"; "nickname"]} ∅ ∅
                   [parse_node (add_not_null PostgresqlMigrator "people" "name")]
                   "nickname" ex_nickname H1 _ _ _ _ _ _ _ _ _ _));
    try (vm_compute; reflexivity); try by_computation.
Defined.


(** ** Where the code departs from the spec *)

(** C1 -- a column whose canonical type changes, [varchar] to [integer],
    while it goes from nullable to NOT NULL: [calc_column_changes] raises
    nothing and returns the add-NOT-NULL alone; the change of type is
    dropped. *)
Theorem retyped_column_is_not_refused :
  existing_cols_by_name ex_retyped_existing !! "a"
    = Some (ColumnMetadata.mk "a" "varchar" true false "t") ∧
  defined_cols_by_name "t" ex_retyped_fields !! "a"
    = Some (ColumnMetadata.mk "a" "integer" false false "t") ∧
  calc_column_changes PostgresqlMigrator "t" "t" ex_retyped_existing ex_retyped_fields []
    = Ok (∅, ∅, ∅, [parse_node (add_not_null PostgresqlMigrator "t" "a")]).
Proof. split_and!; vm_compute; reflexivity. Qed.

(** C2 -- a NOT NULL column added with the declared default [False]: the
    plan holds the warning where the backfill of the default should be. *)
Theorem false_default_is_not_backfilled :
  Field.null ex_flag = false ∧
  Field.default ex_flag = PyBool false ∧
  calc_changes ex_flag_models ex_iter_ops ex_flag_db
    = Ok [parse_node (alter_add_column PostgresqlMigrator "t" "active" ex_flag);
          not_null_warning;
          parse_node (add_not_null PostgresqlMigrator "t" "active")].
Proof. split_and!; vm_compute; reflexivity. Qed.

(** * Further properties *)

(** ** The type normalizer *)

#[local] Arguments String.append : simpl nomatch.

Lemma lower_ascii_idemp (c : ascii) : lower_ascii (lower_ascii c) = lower_ascii c.
Proof. by destruct c as [[] [] [] [] [] [] [] []]. Qed.

Lemma lower_idemp (s : string) : lower (lower s) = lower s.
Proof. induction s as [|c s IH]; simpl; [done|]. by rewrite lower_ascii_idemp, IH. Qed.

Lemma lower_app (s1 s2 : string) : lower (s1 +:+ s2) = lower s1 +:+ lower s2.
Proof. induction s1 as [|c s1 IH]; simpl; [done|]. by rewrite IH. Qed.

Lemma lower_digit (c : ascii) : is_digit c = true → lower_ascii c = c.
Proof. by destruct c as [[] [] [] [] [] [] [] []]. Qed.

Lemma lower_digits (s : string) : all_digits s = true → lower s = s.
Proof.
  induction s as [|c s IH]; simpl; [done|].
  intros [Hc Hs]%andb_true_iff. by rewrite lower_digit, IH.
Qed.

Lemma in_singleton_decide (t s : string) :
  bool_decide (t ∈ [s]) = bool_decide (t = s).
Proof. apply bool_decide_ext, list_elem_of_singleton. Qed.

(** [normalize_column_type] as one chain of cases on the lowered name. *)
Lemma normalize_column_type_cases (t : string) :
  normalize_column_type t
  = if bool_decide (lower t = "serial") then "integer"
    else if bool_decide (lower t = "character varying") then "varchar"
    else if bool_decide (lower t = "timestamp without time zone") then "timestamp"
    else if bool_decide (lower t = "double precision") then "real"
    else if _re_varchar_match (lower t) then "varchar"
    else lower t.
Proof.
  unfold normalize_column_type. cbv zeta. rewrite !in_singleton_decide.
  remember (lower t) as t0 eqn:Ht0. clear Ht0.
  destruct (decide (t0 = "serial")) as [->|H1]; [vm_compute; reflexivity|].
  rewrite !(bool_decide_eq_false_2 (t0 = "serial")) by done.
  destruct (decide (t0 = "character varying")) as [->|H2]; [vm_compute; reflexivity|].
  rewrite !(bool_decide_eq_false_2 (t0 = "character varying")) by done.
  destruct (decide (t0 = "timestamp without time zone")) as [->|H3];
    [vm_compute; reflexivity|].
  rewrite !(bool_decide_eq_false_2 (t0 = "timestamp without time zone")) by done.
  destruct (decide (t0 = "double precision")) as [->|H4]; [vm_compute; reflexivity|].
  by rewrite !(bool_decide_eq_false_2 (t0 = "double precision")) by done.
Qed.

Lemma drop_prefix_Some (p s r : string) : drop_prefix p s = Some r ↔ s = p +:+ r.
Proof.
  revert s. induction p as [|a p IH]; intros s; simpl.
  - split; congruence.
  - destruct s as [|b s]; [split; congruence|].
    destruct (Ascii.eqb_spec a b) as [->|Hne].
    + rewrite IH. split; congruence.
    + split; congruence.
Qed.

Lemma skip_digits_app (ds rest : string) :
  all_digits ds = true →
  skip_digits rest = rest →
  skip_digits (ds +:+ rest) = rest.
Proof.
  intros Hds Hrest. induction ds as [|c ds IH]; simpl in *; [done|].
  apply andb_true_iff in Hds as [-> Hds]. by apply IH.
Qed.

(** The digits [skip_digits] passes over and what it leaves. *)
Lemma skip_digits_split (s : string) :
  ∃ ds, all_digits ds = true ∧ s = ds +:+ skip_digits s.
Proof.
  induction s as [|c s (ds & Hds & Hs)]; [by exists ""|]. simpl.
  destruct (is_digit c) eqn:Hc.
  - exists (String c ds). simpl. rewrite Hc, Hds. split; [done|]. by rewrite <-Hs.
  - by exists "".
Qed.

Lemma _re_varchar_match_iff (t : string) :
  _re_varchar_match t = true ↔
  ∃ ds, ds ≠ "" ∧ all_digits ds = true ∧
        (t = "varchar(" +:+ ds +:+ ")" ∨ t = "varchar(" +:+ ds +:+ ")" +:+ newline).
Proof.
  unfold _re_varchar_match. split.
  - destruct (drop_prefix "varchar(" t) as [rest|] eqn:Hrest; [|done].
    apply drop_prefix_Some in Hrest as ->.
    destruct rest as [|c rest]; [done|].
    intros [Hc Hskip]%andb_true_iff.
    destruct (skip_digits_split (String c rest)) as (ds & Hds & Hsplit).
    exists ds. split_and!; [|done|].
    + intros ->.
      assert (String c rest = skip_digits (String c rest)) as Heq0 by exact Hsplit.
      apply orb_true_iff in Hskip as [Heq|Heq]; apply String.eqb_eq in Heq;
        rewrite Heq in Heq0; injection Heq0 as -> _; discriminate Hc.
    + apply orb_true_iff in Hskip as [Heq|Heq]; apply String.eqb_eq in Heq;
        rewrite Heq in Hsplit; rewrite Hsplit; [by left|by right].
  - intros (ds & Hne & Hds & Ht).
    assert (∃ tail, t = "varchar(" +:+ ds +:+ tail ∧
                    (tail = ")" ∨ tail = ")" +:+ newline)) as (tail & -> & Htail).
    { destruct Ht as [->| ->]; [exists ")"|exists (")" +:+ newline)]; auto. }
    rewrite (proj2 (drop_prefix_Some "varchar(" _ (ds +:+ tail))) by done.
    destruct ds as [|c ds]; [done|]. simpl in Hds.
    apply andb_true_iff in Hds as [Hc Hds]. simpl. rewrite Hc. simpl.
    rewrite skip_digits_app; [|done|by destruct Htail as [-> | ->]].
    by destruct Htail as [-> | ->].
Qed.

(** X2 -- the pattern [_re_varchar].  It matches exactly the names
    [varchar(N)], N being one digit or more, with or without a newline at
    the end: [varchar()] and a width that is no number do not match. *)
Theorem _re_varchar_match_spec (t : string) :
  _re_varchar_match t = true ↔
  ∃ ds, ds ≠ "" ∧ all_digits ds = true ∧
        (t = "varchar(" +:+ ds +:+ ")" ∨ t = "varchar(" +:+ ds +:+ ")" +:+ newline).
Proof. apply _re_varchar_match_iff. Qed.

(** X1 -- the canonical type is stable.  Normalizing a canonical type
    changes nothing, and a canonical type is in lower case: a declared
    type and the type read back from the database after the migration
    compare equal once both are normalized. *)
Theorem normalize_column_type_idempotent (t : string) :
  normalize_column_type (normalize_column_type t) = normalize_column_type t ∧
  lower (normalize_column_type t) = normalize_column_type t.
Proof.
  rewrite (normalize_column_type_cases t).
  repeat (case_bool_decide; [split; vm_compute; reflexivity|]).
  destruct (_re_varchar_match (lower t)) eqn:Hre; [split; vm_compute; reflexivity|].
  split; [|apply lower_idemp].
  rewrite normalize_column_type_cases, lower_idemp.
  rewrite !bool_decide_eq_false_2 by done. by rewrite Hre.
Qed.

(** X3 -- what counts as [varchar].  A type normalizes to [varchar] exactly
    when, case apart, it is [varchar], [character varying] or [varchar(N)]
    with a numeric width: the width of a varchar never makes two column
    definitions differ. *)
Theorem normalize_column_type_varchar (t : string) :
  normalize_column_type t = "varchar" ↔
  lower t = "varchar" ∨ lower t = "character varying" ∨
  ∃ ds, ds ≠ "" ∧ all_digits ds = true ∧
        (lower t = "varchar(" +:+ ds +:+ ")" ∨
         lower t = "varchar(" +:+ ds +:+ ")" +:+ newline).
Proof.
  rewrite normalize_column_type_cases. split.
  - repeat (case_bool_decide; [by auto|]).
    destruct (_re_varchar_match (lower t)) eqn:Hre; [|by auto].
    apply _re_varchar_match_iff in Hre. auto.
  - intros [H|[H|H]].
    + rewrite H. reflexivity.
    + rewrite H. reflexivity.
    + apply _re_varchar_match_iff in H as Hre. rewrite Hre.
      destruct H as (ds & _ & _ & [-> | ->]); reflexivity.
Qed.

(** ** Introspection *)

Lemma foldl_ext_eq {A B} (f g : A → B → A) (l : list B) (a : A) :
  (∀ a x, f a x = g a x) → foldl f a l = foldl g a l.
Proof.
  intros Hfg. revert a. induction l as [|x l IH]; intros a; simpl; [done|].
  by rewrite Hfg, IH.
Qed.

(** X4 -- foreign keys by table.  The list kept for a table holds the
    foreign keys of the catalog rows whose source table it is, all of them
    and in the order of the rows; a table without foreign keys has the
    empty list. *)
Theorem get_foreign_keys_by_table_groups (db : Database.t) (schema t : string) :
  get_foreign_keys_by_table db schema !!! t
  = filter (λ fk, ForeignKeyMetadata.table fk = t)
      (fk_of_row <$> Database.foreign_key_rows db schema).
Proof.
  unfold get_foreign_keys_by_table.
  rewrite (foldl_ext_eq _
             (λ (d : gmap string (list ForeignKeyMetadata.t)) row,
                <[ForeignKeyMetadata.table (fk_of_row row) :=
                    d !!! ForeignKeyMetadata.table (fk_of_row row) ++ [fk_of_row row]]> d))
    by (by intros d [[[[r0 r1] r2] r3] r4]).
  induction (Database.foreign_key_rows db schema) as [|row rows IH] using rev_ind.
  - simpl. by rewrite lookup_total_empty.
  - rewrite foldl_snoc, fmap_app, filter_app. cbn [fmap list_fmap].
    rewrite filter_cons, filter_nil.
    destruct (decide (ForeignKeyMetadata.table (fk_of_row row) = t)) as [<-|Hne].
    + by rewrite lookup_total_insert_eq, IH.
    + rewrite lookup_total_insert_ne by done. by rewrite IH, app_nil_r.
Qed.

(** ** The table-level diff *)

Section table_accounting.

Variable all_models : list Model.t.
Variable existing_tables : list string.

Let init := table_changes_init all_models existing_tables.

Lemma table_invariant_init : table_invariant init init.
Proof.
  split; try done; unfold init; simpl; intros *; by rewrite lookup_empty.
Qed.

Lemma table_step_invariant st to_add st' :
  table_invariant init st → to_add ∈ tc_adds init →
  table_step all_models st to_add = Ok st' → table_invariant init st'.
Proof.
  intros [Ha Hd He Ht Hs Hi] Hin0. unfold table_step.
  intros (cls & Hcls%getitem_Ok & H)%bind_Ok.
  destruct (Model.aka cls) as [akas|]; [|by simplify_eq].
  apply aka_loop_Ok in H as [[-> _]|(l1 & a & l2 & _ & _ & Hdel & Hadd & ->)]; [done|].
  assert (tc_renames st !! a = None) as Hfresh.
  { destruct (tc_renames st !! a) as [t|] eqn:Hl; [|done].
    by destruct (He a t Hl) as [[_ ?] _]. }
  split; simpl.
  - set_solver.
  - set_solver.
  - intros b t. rewrite lookup_insert. case_decide.
    + intros ?; simplify_eq. split; split; [by apply Hd|set_solver|done|set_solver].
    + intros [[??] [??]]%He. split; split; [done|set_solver|done|set_solver].
  - intros t Hin Hnot. destruct (decide (t = to_add)) as [->|Hne].
    + exists a. by rewrite lookup_insert_eq.
    + destruct (Ht t Hin) as [b Hb]; [set_solver|].
      exists b. rewrite lookup_insert_ne; [done|]. intros <-. congruence.
  - intros b Hin Hnot. rewrite lookup_insert. case_decide; [by eexists|].
    apply Hs; [done|]. set_solver.
  - intros b c t. rewrite !lookup_insert.
    destruct (decide (a = b)) as [<-|Hb], (decide (a = c)) as [<-|Hc]; [done|..].
    + intros [= <-] Hc'. by destruct (He c to_add Hc') as [_ [_ ?]].
    + intros Hb' [= <-]. by destruct (He b to_add Hb') as [_ [_ ?]].
    + apply Hi.
Qed.

Lemma table_loop_invariant l : ∀ st st',
  table_invariant init st → (∀ t, t ∈ l → t ∈ tc_adds init) →
  for_each (table_step all_models) l st = Ok st' → table_invariant init st'.
Proof.
  induction l as [|x l IH]; intros st st' Hinv Hl H.
  - simpl in H. by simplify_eq.
  - rewrite for_each_cons in H. apply bind_Ok in H as (st1 & Hx & H).
    eapply IH; [|intros t ?; by apply Hl, list_elem_of_further|done].
    eapply table_step_invariant; [done| |done]. apply Hl, list_elem_of_here.
Qed.

Lemma calc_table_changes_invariant adds deletes renames :
  calc_table_changes all_models existing_tables = Ok (adds, deletes, renames) →
  ∃ st, table_invariant init st ∧ deletes = tc_deletes st ∧ renames = tc_renames st ∧
        NoDup adds ∧
        ∀ t, t ∈ adds ↔ t ∈ tc_adds st.
Proof.
  intros (st & Hloop & Hsort & -> & ->)%calc_table_changes_Ok.
  assert (table_invariant init st) as Hinv.
  { eapply table_loop_invariant; [apply table_invariant_init| |done].
    by intros t ?%elem_of_elements. }
  exists st. split_and!; try done.
  - by apply sort_by_fk_deps_sound in Hsort as (? & _ & _).
  - apply sort_by_fk_deps_sound in Hsort as (_ & Hmem & _).
    intros t. rewrite Hmem. split; [by intros [? _]|]. intros Ht. split; [done|].
    apply (table_adds_declared all_models existing_tables), (ti_adds _ _ Hinv), Ht.
Qed.

End table_accounting.

(** X5 -- table renames come from aliases, one to one.  Every rename
    [calc_table_changes] records maps an existing, undeclared table to a
    declared table that does not exist and that names it among its aliases;
    no two existing tables are renamed to the same declared table. *)
Theorem calc_table_changes_renames_justified
    all_models existing_tables adds deletes renames :
  calc_table_changes all_models existing_tables = Ok (adds, deletes, renames) →
  (∀ a t, renames !! a = Some t →
     a ∈ aliases_of all_models t ∧
     (a ∈ existing_tables ∧ table_names_to_models all_models !! a = None) ∧
     (is_Some (table_names_to_models all_models !! t) ∧ t ∉ existing_tables)) ∧
  (∀ a b t, renames !! a = Some t → renames !! b = Some t → a = b).
Proof.
  intros Hcalc.
  destruct (calc_table_changes_invariant _ _ _ _ _ Hcalc) as (st & Hinv & -> & -> & _).
  apply calc_table_changes_Ok in Hcalc as (st' & Hloop & _ & _ & Hren).
  apply table_loop_summary in Hloop as [_ _ Hnew _ _].
  split; [|apply (ti_injective _ _ Hinv)].
  intros a t Hat. destruct (ti_entry _ _ Hinv a t Hat) as [[Ha _] [Ht _]].
  simpl in Ha, Ht. apply elem_of_difference in Ha as [Ha1 Ha2], Ht as [Ht1 Ht2].
  rewrite elem_of_list_to_set in Ha1, Ht2. rewrite elem_of_dom in Ht1.
  rewrite not_elem_of_dom in Ha2. split_and!; try done.
  rewrite Hren in Hat. apply Hnew in Hat as [Hat|(_ & _ & ?)]; [|done].
  simpl in Hat. by rewrite lookup_empty in Hat.
Qed.

(** X6 -- every table is accounted for.  In the result of
    [calc_table_changes] a declared table that does not exist is created or
    is the target of a rename, and an existing table that is not declared
    is dropped or is the source of a rename; only declared tables that do
    not exist are created and only existing tables that are not declared
    are dropped. *)
Theorem calc_table_changes_accounts
    all_models existing_tables adds deletes renames :
  calc_table_changes all_models existing_tables = Ok (adds, deletes, renames) →
  (∀ t, is_Some (table_names_to_models all_models !! t) → t ∉ existing_tables →
        t ∈ adds ∨ ∃ a, renames !! a = Some t) ∧
  (∀ a, a ∈ existing_tables → table_names_to_models all_models !! a = None →
        a ∈ deletes ∨ is_Some (renames !! a)) ∧
  (∀ t, t ∈ adds →
        is_Some (table_names_to_models all_models !! t) ∧ t ∉ existing_tables) ∧
  (∀ a, a ∈ deletes →
        a ∈ existing_tables ∧ table_names_to_models all_models !! a = None).
Proof.
  intros Hcalc.
  destruct (calc_table_changes_invariant _ _ _ _ _ Hcalc)
    as (st & [Ha Hd He Ht Hs Hi] & -> & -> & _ & Hmem).
  simpl in *. split_and!.
  - intros t Hdecl Hnew. destruct (decide (t ∈ tc_adds st)) as [|Hleft].
    + left. by apply Hmem.
    + right. apply Ht; [|done]. apply elem_of_difference.
      by rewrite elem_of_dom, elem_of_list_to_set.
  - intros a Hex Hundecl. destruct (decide (a ∈ tc_deletes st)) as [|Hleft]; [by left|].
    right. apply Hs; [|done]. apply elem_of_difference.
    by rewrite not_elem_of_dom, elem_of_list_to_set.
  - intros t Hin%Hmem%Ha. apply elem_of_difference in Hin as [H1 H2].
    by rewrite elem_of_dom, elem_of_list_to_set in *.
  - intros a Hin%Hd. apply elem_of_difference in Hin as [H1 H2].
    by rewrite not_elem_of_dom, elem_of_list_to_set in *.
Qed.

(** ** The column-level diff *)

Section column_accounting.

Variable ntn : string.
Variable existing_columns : list ColumnMetadata.t.
Variable defined_fields : list Field.t.

Let ecols := existing_cols_by_name existing_columns.
Let dcols := defined_cols_by_name ntn defined_fields.
Let dfields := defined_fields_by_column_name defined_fields.
Let init := column_changes_init ntn existing_columns defined_fields.

Lemma column_accounting_init : column_accounting dfields init init.
Proof. split; [|done]. intros k v. unfold init; simpl. by rewrite lookup_empty. Qed.

Lemma rename_step_accounting st cn st' :
  column_accounting dfields init st → cn ∈ cc_new_cols init →
  rename_step dcols dfields ecols st cn = Ok st' →
  column_accounting dfields init st'.
Proof.
  intros Hacc Hcn (sc & field & _ & Hfield & Hname & Hakas)%rename_step_Ok.
  destruct (Field.akas field) as [akas|] eqn:Heq; [|by subst].
  revert Hacc Hakas. apply for_each_invariant. clear st st'.
  intros st aka st' Haka [Hal Hso] [[_ ->]|[Hin ->]]%aka_step_Ok; [done|].
  split; simpl.
  - intros k v. rewrite lookup_insert. case_decide; [|apply Hal].
    intros [= <-]. subst. split; [done|]. by exists field, akas.
  - intros k Hk Hnot. rewrite lookup_insert. case_decide; [by eexists|].
    apply Hso; [done|]. set_solver.
Qed.

Lemma rename_loop_accounting l : ∀ st st',
  column_accounting dfields init st → (∀ cn, cn ∈ l → cn ∈ cc_new_cols init) →
  rename_loop ntn existing_columns defined_fields l st = Ok st' →
  column_accounting dfields init st'.
Proof.
  unfold rename_loop. induction l as [|cn l IH]; intros st st' Hacc Hl H.
  - simpl in H. by simplify_eq.
  - rewrite for_each_cons in H. apply bind_Ok in H as (st1 & Hcn & H).
    eapply IH; [|intros c ?; by apply Hl, list_elem_of_further|done].
    eapply rename_step_accounting; [done| |done]. apply Hl, list_elem_of_here.
Qed.

End column_accounting.

Lemma calc_column_changes_invariants
    migrator ntn etn existing_columns defined_fields existing_fks
    new_cols delete_cols rename_cols alter_statements :
  calc_column_changes migrator ntn etn existing_columns defined_fields existing_fks
    = Ok (new_cols, delete_cols, rename_cols, alter_statements) →
  ∃ st,
    new_cols = cc_new_cols st ∧ delete_cols = cc_delete_cols st ∧
    rename_cols = cc_rename_cols st ∧
    column_invariant (column_changes_init ntn existing_columns defined_fields) st ∧
    column_accounting (defined_fields_by_column_name defined_fields)
      (column_changes_init ntn existing_columns defined_fields) st.
Proof.
  intros (st & a1 & Hloop & -> & -> & -> & _)%calc_column_changes_Ok.
  exists st. split_and!; try done.
  - destruct (calc_column_changes_renames ntn existing_columns defined_fields)
      as (st' & Hst' & Hinv). rewrite Hloop in Hst'. by simplify_eq.
  - eapply rename_loop_accounting; [apply column_accounting_init| |done].
    by intros cn ?%elem_of_elements.
Qed.

(** X7 -- column renames come from aliases.  Every rename
    [calc_column_changes] records maps an existing column that is not
    declared to a declared column that does not exist and whose field
    names it among its aliases. *)
Theorem calc_column_changes_renames_justified
    migrator ntn etn existing_columns defined_fields existing_fks
    new_cols delete_cols rename_cols alter_statements :
  calc_column_changes migrator ntn etn existing_columns defined_fields existing_fks
    = Ok (new_cols, delete_cols, rename_cols, alter_statements) →
  ∀ k v, rename_cols !! k = Some v →
    (∃ field akas,
       defined_fields_by_column_name defined_fields !! v = Some field ∧
       Field.akas field = Some akas ∧ k ∈ akas) ∧
    (is_Some (existing_cols_by_name existing_columns !! k) ∧
     defined_cols_by_name ntn defined_fields !! k = None) ∧
    (is_Some (defined_cols_by_name ntn defined_fields !! v) ∧
     existing_cols_by_name existing_columns !! v = None).
Proof.
  intros (st & _ & _ & -> & Hinv & Hacc)%calc_column_changes_invariants k v Hkv.
  destruct (ca_alias _ _ _ Hacc k v Hkv) as [Hv Halias].
  destruct (ci_source _ _ Hinv k v Hkv) as [Hk _].
  simpl in Hv, Hk. apply elem_of_difference in Hv as [Hv1 Hv2], Hk as [Hk1 Hk2].
  rewrite elem_of_dom in Hv1, Hk1. rewrite not_elem_of_dom in Hv2, Hk2.
  by split_and!.
Qed.

(** X8 -- every column is accounted for.  In the result of
    [calc_column_changes] a declared column that does not exist is new or
    is the target of a rename, and an existing column that is not declared
    is to delete or is the source of a rename; only declared columns that
    do not exist are new and only existing columns that are not declared
    are to delete. *)
Theorem calc_column_changes_accounts
    migrator ntn etn existing_columns defined_fields existing_fks
    new_cols delete_cols rename_cols alter_statements :
  calc_column_changes migrator ntn etn existing_columns defined_fields existing_fks
    = Ok (new_cols, delete_cols, rename_cols, alter_statements) →
  (∀ cn, is_Some (defined_cols_by_name ntn defined_fields !! cn) →
         existing_cols_by_name existing_columns !! cn = None →
         cn ∈ new_cols ∨ ∃ k, rename_cols !! k = Some cn) ∧
  (∀ k, is_Some (existing_cols_by_name existing_columns !! k) →
        defined_cols_by_name ntn defined_fields !! k = None →
        k ∈ delete_cols ∨ is_Some (rename_cols !! k)) ∧
  (∀ cn, cn ∈ new_cols →
         is_Some (defined_cols_by_name ntn defined_fields !! cn) ∧
         existing_cols_by_name existing_columns !! cn = None) ∧
  (∀ k, k ∈ delete_cols →
        is_Some (existing_cols_by_name existing_columns !! k) ∧
        defined_cols_by_name ntn defined_fields !! k = None).
Proof.
  intros (st & -> & -> & -> & [Hn Hd Hs Ht] & [_ Hso])%calc_column_changes_invariants.
  simpl in *. split_and!.
  - intros cn Hdecl Hnew. destruct (decide (cn ∈ cc_new_cols st)) as [|Hleft]; [by left|].
    right. apply Ht; [|done]. apply elem_of_difference.
    by rewrite elem_of_dom, not_elem_of_dom.
  - intros k Hex Hundecl. destruct (decide (k ∈ cc_delete_cols st)) as [|Hleft]; [by left|].
    right. apply Hso; [|done]. apply elem_of_difference.
    by rewrite elem_of_dom, not_elem_of_dom.
  - intros cn Hin%Hn. apply elem_of_difference in Hin as [H1 H2].
    by apply elem_of_dom in H1; apply not_elem_of_dom in H2.
  - intros k Hin%Hd. apply elem_of_difference in Hin as [H1 H2].
    by apply elem_of_dom in H1; apply not_elem_of_dom in H2.
Qed.

(** XS -- the spelling of a type.  [calc_column_changes] reads the type of
    an existing column through the normalizer only: two introspections of
    a table that differ in nothing but the spelling of types with the same
    canonical form give the same result, error included. *)
Theorem calc_column_changes_type_spelling
    migrator ntn etn existing_columns existing_columns' defined_fields existing_fks :
  Forall2 same_column existing_columns existing_columns' →
  calc_column_changes migrator ntn etn existing_columns defined_fields existing_fks
  = calc_column_changes migrator ntn etn existing_columns' defined_fields existing_fks.
Proof.
  intros Hsame.
  assert ((λ c, ColumnMetadata.mk (ColumnMetadata.name c)
                  (normalize_column_type (ColumnMetadata.data_type c))
                  (ColumnMetadata.null c) (ColumnMetadata.primary_key c)
                  (ColumnMetadata.table c)) <$> existing_columns
          = (λ c, ColumnMetadata.mk (ColumnMetadata.name c)
                    (normalize_column_type (ColumnMetadata.data_type c))
                    (ColumnMetadata.null c) (ColumnMetadata.primary_key c)
                    (ColumnMetadata.table c)) <$> existing_columns') as Heq.
  { induction Hsame as [|c c' l l' (Hn & Ht & Hnull & Hpk & Htab) _ IH]; [done|].
    rewrite !fmap_cons. by rewrite IH, Hn, Ht, Hnull, Hpk, Htab. }
  unfold calc_column_changes. by rewrite Heq.
Qed.

(** ** A schema that is up to date *)

Lemma invert_renames_empty : invert_renames ∅ = ∅.
Proof. unfold invert_renames. by rewrite map_to_list_empty. Qed.

Lemma calc_column_changes_same
    migrator ntn etn existing_columns defined_fields existing_fks :
  columns_up_to_date ntn existing_columns defined_fields existing_fks →
  calc_column_changes migrator ntn etn existing_columns defined_fields existing_fks
  = Ok (∅, ∅, ∅, []).
Proof.
  intros (Hdom & Hsame & Hfk). rewrite calc_column_changes_unfold.
  assert (column_changes_init ntn existing_columns defined_fields
          = mk_column_changes ∅ ∅ ∅) as ->.
  { unfold column_changes_init. simpl. rewrite Hdom. by rewrite difference_diag_L. }
  cbn [cc_new_cols]. rewrite elements_empty.
  change (rename_loop ntn existing_columns defined_fields [] (mk_column_changes ∅ ∅ ∅))
    with (Ok (mk_column_changes ∅ ∅ ∅)).
  cbn [bind cc_new_cols cc_delete_cols cc_rename_cols].
  assert (Hmeta : ∀ l, (∀ cn, cn ∈ l →
                          cn ∈ dom (defined_cols_by_name ntn defined_fields)) →
            metadata_loop migrator ntn existing_columns defined_fields ∅ l [] = Ok []).
  { unfold metadata_loop. rewrite invert_renames_empty.
    induction l as [|cn l IH]; intros Hl; [done|].
    rewrite for_each_cons.
    assert (cn ∈ dom (defined_cols_by_name ntn defined_fields)) as Hcn
      by apply Hl, list_elem_of_here.
    pose proof Hcn as [dc Hdc]%elem_of_dom.
    rewrite <-Hdom in Hcn. apply elem_of_dom in Hcn as [ec Hec].
    unfold metadata_step at 1. rewrite lookup_empty. simpl.
    unfold getitem. rewrite Hec, Hdc. simpl. rewrite (Hsame cn ec dc Hec Hdc). simpl.
    apply IH. intros c ?. by apply Hl, list_elem_of_further. }
  assert (Hfks : ∀ l, (∀ cn, cn ∈ l →
                         cn ∈ dom (defined_cols_by_name ntn defined_fields)) →
            fk_loop ntn defined_fields existing_fks ∅ l [] = Ok []).
  { unfold fk_loop. rewrite invert_renames_empty.
    induction l as [|cn l IH]; intros Hl; [done|].
    rewrite for_each_cons.
    assert (cn ∈ dom (defined_cols_by_name ntn defined_fields)) as Hcn
      by apply Hl, list_elem_of_here.
    apply defined_dom, elem_of_dom in Hcn as [field Hfield].
    rewrite (fk_step_emits _ _ _ _ _ _ Hfield). rewrite lookup_empty. simpl.
    rewrite (Hfk cn field Hfield).
    assert ((match existing_fks_by_column existing_fks !! cn with
             | Some existing_fk =>
                 if bool_decide (is_Some (existing_fks_by_column existing_fks !! cn))
                 then []
                 else [parse_node (Clause [SQL "ALTER TABLE"; Entity ntn;
                                           SQL "DROP CONSTRAINT";
                                           Entity (ForeignKeyMetadata.name existing_fk)])]
             | None =>
                 if bool_decide (is_Some (existing_fks_by_column existing_fks !! cn))
                 then [parse_node (_create_foreign_key (Field.model_class field) field)]
                 else []
             end) = []) as ->.
    { destruct (existing_fks_by_column existing_fks !! cn) as [fk|].
      - by rewrite bool_decide_eq_true_2 by eauto.
      - by rewrite bool_decide_eq_false_2 by (by intros [??]). }
    apply IH. intros c ?. by apply Hl, list_elem_of_further. }
  unfold not_new_columns. rewrite difference_empty_L.
  rewrite Hmeta by (by intros cn ?%elem_of_elements). cbn [bind].
  by rewrite Hfks by (by intros cn ?%elem_of_elements).
Qed.

(** X9 -- no column change.  When the existing columns of a table have the
    names of the declared fields, no definition differs and the foreign-key
    constraints are on the columns of the foreign-key fields,
    [calc_column_changes] returns nothing to add, delete, rename or
    alter. *)
Theorem calc_column_changes_up_to_date
    migrator ntn etn existing_columns defined_fields existing_fks :
  columns_up_to_date ntn existing_columns defined_fields existing_fks →
  calc_column_changes migrator ntn etn existing_columns defined_fields existing_fks
  = Ok (∅, ∅, ∅, []).
Proof. apply calc_column_changes_same. Qed.






(** X12 -- an empty database.  When the database has no table, a plan of
    [calc_changes] holds one CREATE TABLE for every declared table, each
    after the tables it foreign-keys into, and nothing else. *)
Theorem calc_changes_empty_database all_models iter_ops db to_run :
  Database.get_tables db = [] →
  calc_changes all_models iter_ops db = Ok to_run →
  ∃ adds,
    adds ≡ₚ elements (dom (table_names_to_models all_models) : gset string) ∧
    fk_ordered all_models adds ∧
    Forall2 (λ tbl stmt, ∃ cls, table_names_to_models all_models !! tbl = Some cls ∧
                                stmt = create_table cls) adds to_run.
Proof.
  intros Hempty Hplan.
  apply calc_changes_plan in Hplan
    as (migrator & adds & deletes & renames & creates & blocks
        & _ & Htab & Hord & Hcreates & Hblocks & ->).
  rewrite Hempty in Htab.
  destruct (calc_table_changes_invariant _ _ _ _ _ Htab)
    as (st & [Ha Hd He Ht Hs Hi] & -> & -> & Hnd & Hmem).
  simpl in *.
  assert (tc_renames st = ∅) as Hren.
  { apply map_empty. intros a. destruct (tc_renames st !! a) as [t|] eqn:Hat; [|done].
    destruct (He a t Hat) as [[Hin _] _]. set_solver. }
  assert (tc_deletes st = ∅) as Hdel by set_solver.
  assert (blocks = []) as ->.
  { unfold existing_columns_of in Hblocks. rewrite Hempty in Hblocks. simpl in Hblocks.
    rewrite map_to_list_empty in Hblocks. by inversion Hblocks. }
  exists adds. split_and!; [|done|].
  - apply NoDup_Permutation; [done|apply NoDup_elements|].
    intros t. rewrite Hmem, elem_of_elements. split.
    + intros Hin%Ha. set_solver.
    + intros Hin. destruct (decide (t ∈ tc_adds st)) as [|Hleft]; [done|].
      destruct (Ht t) as [a Hat]; [set_solver|done|]. rewrite Hren in Hat.
      by rewrite lookup_empty in Hat.
  - unfold rename_table_statements. rewrite Hren, Hdel, map_to_list_empty, elements_empty.
    simpl. by rewrite !app_nil_r.
Qed.

(** ** What a diff raises *)







(** ** Running a plan *)



Section running.

Variable schema : Type.
Variable execute_sql : schema → string → list pyval → schema * result unit.


Lemma _execute_outcome conn to_run interactive :
  snapshots schema (_execute schema execute_sql conn to_run interactive).1
    = snapshots schema conn ∧
  (∀ e, (_execute schema execute_sql conn to_run interactive).2 = Raise e →
        (_execute schema execute_sql conn to_run interactive).1 = conn).
Proof.
  unfold _execute, atomic.
  destruct (execute_loop schema execute_sql to_run (begin schema conn)) as [c r] eqn:Hloop.
  apply execute_loop_snapshots in Hloop. simpl in Hloop.
  destruct r as [[]|e]; unfold commit, rollback; rewrite Hloop; simpl; [done|].
  split; [done|]. intros _ _. by destruct conn.
Qed.

End running.


(** X15 -- the confirmation.  [_confirm] asks again after every line that
    is neither yes nor no, case and surrounding whitespace apart; it
    returns at the first yes, leaving the lines after it unread, leaves
    the process with status 1 at the first no, and raises nothing of its
    own: it ends otherwise only when the input does. *)
Theorem _confirm_first_answer (stdin : list string) :
  match _confirm stdin with
  | Returns rest =>
      ∃ asked line, stdin = asked ++ line :: rest ∧
                    Forall undecided asked ∧ response line = "yes"
  | SystemExit code =>
      code = 1%Z ∧
      ∃ asked line rest, stdin = asked ++ line :: rest ∧
                         Forall undecided asked ∧ response line = "no"
  | EOFError => Forall undecided stdin
  | Raises _ => False
  end.
Proof.
  induction stdin as [|line stdin IH]; simpl; [done|].
  destruct (String.eqb (lower (strip line)) "yes") eqn:Hyes.
  { apply String.eqb_eq in Hyes. by exists [], line. }
  destruct (String.eqb (lower (strip line)) "no") eqn:Hno.
  { apply String.eqb_eq in Hno. split; [done|]. by exists [], line, stdin. }
  apply String.eqb_neq in Hyes, Hno.
  assert (undecided line) as Hline by done.
  destruct (_confirm stdin) as [rest|e|code|]; [| done | |].
  - destruct IH as (asked & l & -> & Hasked & Hl).
    exists (line :: asked), l. by split_and!; [|constructor|].
  - destruct IH as (-> & asked & l & rest & -> & Hasked & Hl).
    split; [done|]. exists (line :: asked), l, rest. by split_and!; [|constructor|].
  - by constructor.
Qed.

(** X16 -- what a run of [evolve] leaves behind.  Whatever the diff, the
    answers and the statements do, [evolve] leaves the transactions that
    were open as they were; when it does not return -- the diff raises, the
    user declines, the input ends or a statement fails -- the connection
    is exactly as before; and when it asks and is not told yes, nothing is
    run. *)
Theorem evolve_changes_only_on_success
    all_models iter_ops qc_parse_node qc_create_table schema execute_sql
    db conn stdin interactive :
  let run := evolve all_models iter_ops qc_parse_node qc_create_table schema execute_sql
               db conn stdin interactive in
  snapshots schema run.1 = snapshots schema conn ∧
  ((∀ u, run.2 ≠ Returns u) → run.1 = conn) ∧
  (interactive = true → (∀ rest, _confirm stdin ≠ Returns rest) → run.1 = conn).
Proof.
  unfold evolve.
  destruct (calc_changes all_models iter_ops db) as [to_run|e]; [|done].
  case_bool_decide; [done|].
  pose proof (_execute_outcome schema execute_sql conn
                (compile qc_parse_node qc_create_table <$> to_run) interactive)
    as [Hsnap Hraise].
  assert (Hrun :
    let run := (let (conn', r) :=
                  _execute schema execute_sql conn
                    (compile qc_parse_node qc_create_table <$> to_run) interactive in
                (conn', match r with Ok _ => Returns () | Raise e => Raises e end)) in
    snapshots schema run.1 = snapshots schema conn ∧
    ((∀ u, run.2 ≠ Returns u) → run.1 = conn)).
  { destruct (_execute _ _ _ _ _) as [conn' [[]|e]]; simpl in *.
    - split; [done|]. intros Hno. by destruct (Hno ()).
    - split; [done|]. intros _. by eapply Hraise. }
  destruct interactive.
  - destruct (_confirm stdin) as [rest|e|code|]; simpl; try done.
    destruct Hrun as [? ?]. split_and!; [done..|].
    intros _ Hno. by destruct (Hno rest).
  - destruct Hrun as [? ?]. by split_and!.
Qed.

(** ** The further properties on the worked examples *)

(** The key of an entry of a dict that is known in full. *)
Ltac known_key H :=
  let Hk := fresh "Hk" in
  pose proof (elem_of_dom_2 _ _ _ H) as Hk;
  apply elem_of_elements in Hk; vm_compute in Hk;
  repeat (apply elem_of_cons in Hk as [->|Hk]);
  [..|by apply elem_of_nil in Hk].

Ltac columns_up_to_date_by_computation :=
  unfold columns_up_to_date; split_and!;
  [ by_computation
  | let H1 := fresh in let H2 := fresh in
    intros ? ? ? H1 H2; known_key H1; vm_compute in H1, H2;
    injection H1 as <-; injection H2 as <-; reflexivity
  | let H := fresh in
    intros ? ? H; known_key H; vm_compute in H; injection H as <-;
    vm_compute; reflexivity ].

Lemma calc_table_changes_renames_justified_witness :
  calc_table_changes ex_models ["users"; "junk"]
    = Ok (["orders"], {["junk"]}, {["users" := "people"]}) ∧
  "users" ∈ aliases_of ex_models "people" ∧
  ("users" ∈ ["users"; "junk"] ∧ table_names_to_models ex_models !! "users" = None) ∧
  (is_Some (table_names_to_models ex_models !! "people") ∧ "people" ∉ ["users"; "junk"]).
Proof.
  assert (H1 : calc_table_changes ex_models ["users"; "junk"]
               = Ok (["orders"], {["junk"]}, {["users" := "people"]}))
    by (vm_compute; reflexivity).
  split; [exact H1|].
  apply (proj1 (calc_table_changes_renames_justified _ _ _ _ _ H1) "users" "people").
  vm_compute; reflexivity.
Defined.

Lemma calc_table_changes_accounts_witness :
  calc_table_changes ex_models ["users"; "junk"]
    = Ok (["orders"], {["junk"]}, {["users" := "people"]}) ∧
  ("people" ∈ ["orders"] ∨
   ∃ a, ({["users" := "people"]} : gmap string string) !! a = Some "people") ∧
  ("junk" ∈ ["users"; "junk"] ∧ table_names_to_models ex_models !! "junk" = None).
Proof.
  assert (H1 : calc_table_changes ex_models ["users"; "junk"]
               = Ok (["orders"], {["junk"]}, {["users" := "people"]}))
    by (vm_compute; reflexivity).
  destruct (calc_table_changes_accounts _ _ _ _ _ H1) as (Hadd & _ & _ & Hdel).
  split; [exact H1|]. split.
  - apply Hadd; by_computation.
  - apply Hdel. by_computation.
Defined.

Lemma calc_column_changes_renames_justified_witness :
  calc_column_changes PostgresqlMigrator "t" "t"
    ex_existing_columns ex_defined_fields ex_existing_fks
    = Ok ({["extra"]}, {["legacy"]}, ex_rename_cols, ex_alter_statements) ∧
  (∃ field akas,
     defined_fields_by_column_name ex_defined_fields !! "email" = Some field ∧
     Field.akas field = Some akas ∧ "mail2" ∈ akas) ∧
  (is_Some (existing_cols_by_name ex_existing_columns !! "mail2") ∧
   defined_cols_by_name "t" ex_defined_fields !! "mail2" = None) ∧
  (is_Some (defined_cols_by_name "t" ex_defined_fields !! "email") ∧
   existing_cols_by_name ex_existing_columns !! "email" = None).
Proof.
  assert (H1 : calc_column_changes PostgresqlMigrator "t" "t"
                 ex_existing_columns ex_defined_fields ex_existing_fks
               = Ok ({["extra"]}, {["legacy"]}, ex_rename_cols, ex_alter_statements))
    by (vm_compute; reflexivity).
  split; [exact H1|].
  apply (calc_column_changes_renames_justified _ _ _ _ _ _ _ _ _ _ H1 "mail2" "email").
  vm_compute; reflexivity.
Defined.

Lemma calc_column_changes_accounts_witness :
  calc_column_changes PostgresqlMigrator "t" "t"
    ex_existing_columns ex_defined_fields ex_existing_fks
    = Ok ({["extra"]}, {["legacy"]}, ex_rename_cols, ex_alter_statements) ∧
  ("owner" ∈ ({["extra"]} : gset string) ∨ ∃ k, ex_rename_cols !! k = Some "owner") ∧
  (is_Some (existing_cols_by_name ex_existing_columns !! "legacy") ∧
   defined_cols_by_name "t" ex_defined_fields !! "legacy" = None).
Proof.
  assert (H1 : calc_column_changes PostgresqlMigrator "t" "t"
                 ex_existing_columns ex_defined_fields ex_existing_fks
               = Ok ({["extra"]}, {["legacy"]}, ex_rename_cols, ex_alter_statements))
    by (vm_compute; reflexivity).
  destruct (calc_column_changes_accounts _ _ _ _ _ _ _ _ _ _ H1) as (Hnew & _ & _ & Hdel).
  split; [exact H1|]. split.
  - apply Hnew; by_computation.
  - apply Hdel. by_computation.
Defined.

Lemma calc_column_changes_type_spelling_witness :
  calc_column_changes PostgresqlMigrator "t" "t"
    ex_existing_columns ex_defined_fields ex_existing_fks
  = calc_column_changes PostgresqlMigrator "t" "t"
      ex_respelled_columns ex_defined_fields ex_existing_fks.
Proof.
  apply calc_column_changes_type_spelling.
  repeat (constructor; [unfold same_column; split_and!; vm_compute; reflexivity|]).
  constructor.
Defined.

Lemma calc_column_changes_up_to_date_witness :
  calc_column_changes PostgresqlMigrator "orders" "orders"
    (Database.get_columns ex_migrated_db "orders") (Model.sorted_fields ex_orders)
    (get_foreign_keys_by_table ex_migrated_db "public" !!! "orders")
  = Ok (∅, ∅, ∅, []).
Proof.
  apply calc_column_changes_up_to_date.
  columns_up_to_date_by_computation.
Defined.



Lemma calc_changes_empty_database_witness :
  calc_changes ex_chain ex_iter_ops ex_empty_db = Ok (create_table <$> reverse ex_chain) ∧
  ∃ adds,
    adds ≡ₚ elements (dom (table_names_to_models ex_chain) : gset string) ∧
    fk_ordered ex_chain adds ∧
    Forall2 (λ tbl stmt, ∃ cls, table_names_to_models ex_chain !! tbl = Some cls ∧
                                stmt = create_table cls)
      adds (create_table <$> reverse ex_chain).
Proof.
  assert (H1 : calc_changes ex_chain ex_iter_ops ex_empty_db
               = Ok (create_table <$> reverse ex_chain))
    by (vm_compute; reflexivity).
  split; [exact H1|].
  apply (calc_changes_empty_database ex_chain ex_iter_ops ex_empty_db _ eq_refl H1).
Defined.


Lemma evolve_changes_only_on_success_witness :
  (evolve ex_models ex_iter_ops ex_qc_parse_node ex_qc_create_table
     (list string) ex_execute_sql ex_db (mk_connection _ ["users"; "junk"] [])
     ["maybe"; " No "; "yes"] true).1
  = mk_connection _ ["users"; "junk"] [].
Proof.
  refine (proj2 (proj2 (evolve_changes_only_on_success
                          ex_models ex_iter_ops ex_qc_parse_node ex_qc_create_table
                          (list string) ex_execute_sql ex_db
                          (mk_connection _ ["users"; "junk"] [])
                          ["maybe"; " No "; "yes"] true)) eq_refl _).
  intros rest. vm_compute. discriminate.
Defined.
